(** * Browser-side authentication client and chat front end

    A shallow embedding of the TypeScript front end:
    - [frontend/lib/auth.ts]        the [AuthService] class,
    - [frontend/components/Chat.tsx] the [Chat] component,
    - the [AuthCallback] page with its [handleCallback] helper.

    JavaScript values that flow through the code (parsed JSON bodies,
    header records, the token store) are modelled as values of [jsval];
    plain JS objects built by the code are finite maps from property
    names to values.  Strings are kept as their UTF-8 bytes. *)

From Stdlib Require Import ZArith String Ascii List Bool Lia.
From stdpp Require Import base gmap strings list fin_maps pretty.

Local Open Scope string_scope.
Local Open Scope Z_scope.

(** ** JavaScript strings *)

Module Str.

Definition code (c : ascii) : N := N_of_ascii c.

(** The ECMAScript [WhiteSpace] and [LineTerminator] code points, which
    [String.prototype.trim] strips: U+0009..U+000D, U+0020 (one byte),
    U+00A0 (two bytes), U+1680, U+2000..U+200A, U+2028, U+2029, U+202F,
    U+205F, U+3000 and U+FEFF (three bytes each). *)
Definition ws1 (b1 : N) : bool :=
  ((9 <=? b1) && (b1 <=? 13) || (b1 =? 32))%N.

Definition ws2 (b1 b2 : N) : bool :=
  ((b1 =? 194) && (b2 =? 160))%N.

Definition ws3 (b1 b2 b3 : N) : bool :=
  (((b1 =? 225) && (b2 =? 154) && (b3 =? 128))
   || ((b1 =? 226) && (b2 =? 128)
       && (((128 <=? b3) && (b3 <=? 138)) || (b3 =? 168) || (b3 =? 169) || (b3 =? 175)))
   || ((b1 =? 226) && (b2 =? 129) && (b3 =? 159))
   || ((b1 =? 227) && (b2 =? 128) && (b3 =? 128))
   || ((b1 =? 239) && (b2 =? 187) && (b3 =? 191)))%N.

(** Drop white space from the front.  With [back = true] the bytes are
    read in reverse order, which is how the end of a string is trimmed. *)
Fixpoint strip (back : bool) (s : string) : string :=
  match s with
  | EmptyString => EmptyString
  | String c1 r1 =>
      if ws1 (code c1) then strip back r1
      else
        match r1 with
        | EmptyString => s
        | String c2 r2 =>
            if (if back then ws2 (code c2) (code c1) else ws2 (code c1) (code c2))
            then strip back r2
            else
              match r2 with
              | EmptyString => s
              | String c3 r3 =>
                  if (if back then ws3 (code c3) (code c2) (code c1)
                      else ws3 (code c1) (code c2) (code c3))
                  then strip back r3
                  else s
              end
        end
  end.

(** [s.trim()] *)
Definition trim (s : string) : string :=
  String.rev (strip true (String.rev (strip false s))).

(** The UTF-8 encodings of the code points that [trim] removes. *)
Definition utf8 (bs : list N) : string :=
  fold_right (fun b acc => String (ascii_of_N b) acc) EmptyString bs.

Definition white_space : list string :=
  map utf8
    (app [ [9]; [10]; [11]; [12]; [13]; [32]; [194; 160]; [225; 154; 128] ]
      (app (map (fun b => [226; 128; b])
              [128; 129; 130; 131; 132; 133; 134; 135; 136; 137; 138; 168; 169; 175])
           [ [226; 129; 159]; [227; 128; 128]; [239; 187; 191] ]))%N.

(** A string that is empty or made of white space only. *)
Definition Blank (s : string) : Prop :=
  exists cs : list string,
    Forall (fun c => In c white_space) cs /\ s = fold_right String.append "" cs.

(** [encodeURIComponent]: every byte outside [A-Z a-z 0-9 - _ . ! ~ * ' ( )]
    is written as [%XX]. *)
Definition unreserved (b : N) : bool :=
  ((65 <=? b) && (b <=? 90) || (97 <=? b) && (b <=? 122) || (48 <=? b) && (b <=? 57)
   || (b =? 45) || (b =? 95) || (b =? 46) || (b =? 33) || (b =? 126)
   || (b =? 42) || (b =? 39) || (b =? 40) || (b =? 41))%N.

Definition hex (d : N) : ascii :=
  ascii_of_N (if (d <? 10)%N then 48 + d else 55 + d)%N.

Fixpoint encodeURIComponent (s : string) : string :=
  match s with
  | EmptyString => EmptyString
  | String c r =>
      let b := code c in
      if unreserved b then String c (encodeURIComponent r)
      else String "%" (String (hex (b / 16)) (String (hex (b mod 16)) (encodeURIComponent r)))
  end.

(** [s.startsWith(p)] *)
Definition startsWith (p s : string) : bool := String.prefix p s.

End Str.

(** ** JavaScript values and errors *)

(** Values thrown by the engine or by the code. *)
Inductive Err : Type :=
| NetworkFailure              (* [fetch] rejects: the request never got a response *)
| NotJson                     (* [response.json()] rejects: the body is not JSON *)
| NullDeref (name : string)   (* TypeError: property [name] read on [null]/[undefined] *)
| Error (msg : string).       (* [new Error(msg)] *)

(** A completed evaluation, and also a settled promise: a value, or a
    thrown value (a rejection). *)
Inductive Completion (A : Type) : Type :=
| Value (a : A)
| Thrown (e : Err).
Arguments Value {A} a.
Arguments Thrown {A} e.

(** Values that [JSON.parse] produces, plus [undefined].  Numbers that reach
    the code from a body are only tested for truthiness; they are kept as
    integers. *)
#[warnings="-register-all"] Inductive jsval : Type :=
| JUndefined
| JNull
| JBool (b : bool)
| JNum (n : Z)
| JStr (s : string)
| JArr (items : list jsval)
| JObj (fields : list (string * jsval)).

Module JS.

(** [ToBoolean] *)
Definition truthy (v : jsval) : bool :=
  match v with
  | JUndefined | JNull => false
  | JBool b => b
  | JNum n => negb (n =? 0)
  | JStr s => negb (String.eqb s "")
  | JArr _ | JObj _ => true
  end.

Fixpoint assoc (name : string) (fields : list (string * jsval)) : jsval :=
  match fields with
  | [] => JUndefined
  | (k, v) :: rest => if String.eqb k name then v else assoc name rest
  end.

(** [v.name], for the data property names the code reads ([access_token],
    [id_token], [auth_url], [messages], [type], [content]): none of them
    is a built-in property of a string, number, boolean or array. *)
Definition prop (v : jsval) (name : string) : Completion jsval :=
  match v with
  | JUndefined | JNull => Thrown (NullDeref name)
  | JObj fields => Value (assoc name fields)
  | _ => Value JUndefined
  end.

(** [v === 'text'] *)
Definition is_string (text : string) (v : jsval) : bool :=
  match v with
  | JStr s => String.eqb s text
  | _ => false
  end.

(** [v == null] *)
Definition nullish (v : jsval) : bool :=
  match v with
  | JUndefined | JNull => true
  | _ => false
  end.

Definition isArray (v : jsval) : bool :=
  match v with
  | JArr _ => true
  | _ => false
  end.

(** [e.name] and [e.message] of a thrown value.  The wording of the
    engine's own messages differs between engines; one wording stands
    for it here. *)
Definition name (e : Err) : string :=
  match e with
  | NetworkFailure | NullDeref _ => "TypeError"
  | NotJson => "SyntaxError"
  | Error _ => "Error"
  end.

Definition message (e : Err) : string :=
  match e with
  | NetworkFailure => "Failed to fetch"
  | NotJson => "Unexpected token"
  | NullDeref p => "Cannot read properties of null (reading '" +:+ p +:+ "')"
  | Error msg => msg
  end.

(** [String(e)] *)
Definition describe (e : Err) : string :=
  if String.eqb (message e) "" then name e else name e +:+ ": " +:+ message e.

(** Sequencing of code that may throw. *)
Definition and_then {A B : Type} (c : Completion A) (f : A -> Completion B) : Completion B :=
  match c with
  | Value a => f a
  | Thrown e => Thrown e
  end.

End JS.

(** ** HTTP as seen through [fetch] *)

(** The second argument of [fetch].  [headers] is a plain object; an absent
    [headers] spreads to nothing and is the empty map. *)
Record RequestInit : Type := {
  method : option string;
  credentials : option string;
  headers : gmap string jsval;
  req_body : option string
}.

Record Request : Type := {
  url : string;
  init : RequestInit
}.

(** What the code reads of a [Response].  [body] is what [response.json()]
    resolves to; [None] when the body does not parse. *)
Record Response : Type := {
  status : Z;
  statusText : string;
  body : option jsval
}.

(** [response.ok] *)
Definition ok (r : Response) : bool := (200 <=? status r) && (status r <=? 299).

Definition parse (r : Response) : Completion jsval :=
  match body r with
  | Some v => Value v
  | None => Thrown NotJson
  end.

(** ** Asynchronous code *)

(** [auth.ts], lines 8-16: the token record is a plain object, and the two
    private fields of the service.  A promise is named by its number. *)
Record AuthService : Type := {
  tokenStore : option (gmap string jsval);
  refreshPromise : option nat
}.

(** The body of an [async] method: each constructor is one operation of the
    source, and the [Await*] constructors are the points where the method
    is suspended and other code may run. *)
Inductive Async (R : Type) : Type :=
| Ret (r : R)
| Throw (e : Err)
| ReadThis (k : AuthService -> Async R)
| WriteTokenStore (v : option (gmap string jsval)) (k : Async R)
| WriteRefreshPromise (v : option nat) (k : Async R)
| AwaitFetch (req : Request) (k : Completion Response -> Async R)
| AwaitTick (k : Async R)
| CallFetchAndStoreTokens (k : nat -> Async R)
| AwaitPromise (p : nat) (k : Completion (option (gmap string jsval)) -> Async R).
Arguments Ret {R} r.
Arguments Throw {R} e.
Arguments ReadThis {R} k.
Arguments WriteTokenStore {R} v k.
Arguments WriteRefreshPromise {R} v k.
Arguments AwaitFetch {R} req k.
Arguments AwaitTick {R} k.
Arguments CallFetchAndStoreTokens {R} k.
Arguments AwaitPromise {R} p k.

Fixpoint bind {A B : Type} (c : Async A) (f : A -> Async B) : Async B :=
  match c with
  | Ret a => f a
  | Throw e => Throw e
  | ReadThis k => ReadThis (fun s => bind (k s) f)
  | WriteTokenStore v k => WriteTokenStore v (bind k f)
  | WriteRefreshPromise v k => WriteRefreshPromise v (bind k f)
  | AwaitFetch req k => AwaitFetch req (fun o => bind (k o) f)
  | AwaitTick k => AwaitTick (bind k f)
  | CallFetchAndStoreTokens k => CallFetchAndStoreTokens (fun p => bind (k p) f)
  | AwaitPromise p k => AwaitPromise p (fun o => bind (k o) f)
  end.

(** [try { body } catch (error) { handler error }] *)
Fixpoint try_catch {A : Type} (c : Async A) (handler : Err -> Async A) : Async A :=
  match c with
  | Ret a => Ret a
  | Throw e => handler e
  | ReadThis k => ReadThis (fun s => try_catch (k s) handler)
  | WriteTokenStore v k => WriteTokenStore v (try_catch k handler)
  | WriteRefreshPromise v k => WriteRefreshPromise v (try_catch k handler)
  | AwaitFetch req k => AwaitFetch req (fun o => try_catch (k o) handler)
  | AwaitTick k => AwaitTick (try_catch k handler)
  | CallFetchAndStoreTokens k => CallFetchAndStoreTokens (fun p => try_catch (k p) handler)
  | AwaitPromise p k => AwaitPromise p (fun o => try_catch (k o) handler)
  end.

Definition lift {A : Type} (c : Completion A) : Async A :=
  match c with
  | Value a => Ret a
  | Thrown e => Throw e
  end.

(** [await fetch(url, init)] *)
Definition fetch (u : string) (i : RequestInit) : Async Response :=
  AwaitFetch {| url := u; init := i |} lift.

(** [await response.json()] *)
Definition json (r : Response) : Async jsval :=
  AwaitTick (lift (parse r)).

(** [await p] for a promise held in a field *)
Definition await (p : nat) : Async (option (gmap string jsval)) :=
  AwaitPromise p lift.

(** [await this.method(...)]: the callee runs, and the caller continues one
    turn after the callee has returned. *)
Definition call {A : Type} (callee : Async A) : Async A :=
  bind callee (fun a => AwaitTick (Ret a)).

Declare Scope async_scope.
Delimit Scope async_scope with async.
Notation "x <- c ;; k" := (bind c (fun x => k))
  (at level 100, c at next level, right associativity) : async_scope.
Notation "c ;;; k" := (c k)
  (at level 100, right associativity, only parsing) : async_scope.
Local Open Scope async_scope.

(** ** [AuthService] ([frontend/lib/auth.ts]) *)

Module AuthService.

Definition baseUrl : string := "/api".

Definition get_with_credentials : RequestInit :=
  {| method := Some "GET"; credentials := Some "include"; headers := ∅; req_body := None |}.

Definition tokens_request : Request :=
  {| url := baseUrl +:+ "/auth/tokens"; init := get_with_credentials |}.

Definition login_request : Request :=
  {| url := baseUrl +:+ "/auth/login"; init := get_with_credentials |}.

Definition logout_request : Request :=
  {| url := baseUrl +:+ "/auth/logout"; init := get_with_credentials |}.

(** lines 19-44.  The [console] calls have no effect on the program. *)
Definition fetchAndStoreTokens : Async (option (gmap string jsval)) :=
  try_catch
    (response <- fetch (baseUrl +:+ "/auth/tokens") get_with_credentials ;;
     if ok response then
       tokens <- json response ;;
       access <- lift (JS.prop tokens "access_token") ;;
       id <- lift (JS.prop tokens "id_token") ;;
       WriteTokenStore (Some (<["access_token" := access]> (<["id_token" := id]> ∅))) ;;;
       ReadThis (fun this => Ret (tokenStore this))
     else
       WriteTokenStore None ;;;
       Ret None)
    (fun error =>
       WriteTokenStore None ;;;
       Ret None).

(** lines 47-58.  [return this.refreshPromise] makes the promise of this
    call settle as the one in flight does: the caller gets its value once
    it is there. *)
Definition getTokens : Async (option (gmap string jsval)) :=
  ReadThis (fun this =>
    match refreshPromise this with
    | Some p => await p
    | None =>
        CallFetchAndStoreTokens (fun p =>
        WriteRefreshPromise (Some p) ;;;
        result <- await p ;;
        WriteRefreshPromise None ;;;
        Ret result)
    end).

(** lines 63-70: the value returned for [tokens].  An object is truthy,
    so [!tokens] holds for [null] only. *)
Definition auth_headers (tokens : option (gmap string jsval)) : option (gmap string jsval) :=
  match tokens with
  | None => None
  | Some t =>
      Some (<["azure-access-token" := default JUndefined (t !! "access_token")]>
           (<["azure-id-token" := default JUndefined (t !! "id_token")]> ∅))
  end.

(** lines 61-71 *)
Definition getAuthHeaders : Async (option (gmap string jsval)) :=
  tokens <- call getTokens ;;
  Ret (auth_headers tokens).

(** [{...options, credentials: 'include',
      headers: {...options.headers, ...(authHeaders && authHeaders)}}]:
    a later spread wins, and spreading [null] adds nothing. *)
Definition with_auth (options : RequestInit) (authHeaders : option (gmap string jsval))
  : RequestInit :=
  {| method := method options;
     credentials := Some "include";
     headers := default ∅ authHeaders ∪ headers options;
     req_body := req_body options |}.

(** lines 88-107: what follows the first response. *)
Definition retry_on_401 (u : string) (options : RequestInit) (response : Response)
  : Async Response :=
  if status response =? 401 then
    WriteTokenStore None ;;;
    WriteRefreshPromise None ;;;
    newAuthHeaders <- call getAuthHeaders ;;
    match newAuthHeaders with
    | Some h => fetch u (with_auth options (Some h))
    | None => Ret response
    end
  else Ret response.

(** lines 74-108 *)
Definition authenticatedFetch (u : string) (options : RequestInit) : Async Response :=
  authHeaders <- call getAuthHeaders ;;
  response <- fetch u (with_auth options authHeaders) ;;
  retry_on_401 u options response.

(** lines 110-126 *)
Definition getAuthUrl : Async jsval :=
  try_catch
    (response <- fetch (baseUrl +:+ "/auth/login") get_with_credentials ;;
     if negb (ok response)
     then Throw (Error ("Failed to get auth URL: " +:+ pretty (status response)))
     else
       data <- json response ;;
       lift (JS.prop data "auth_url"))
    (fun error => Throw error).

(** lines 128-131 *)
Definition checkAuthStatus : Async bool :=
  tokens <- call getTokens ;;
  Ret (match tokens with Some _ => true | None => false end).

(** lines 133-145 *)
Definition logout : Async unit :=
  try_catch
    (_ <- fetch (baseUrl +:+ "/auth/logout") get_with_credentials ;;
     WriteTokenStore None ;;;
     WriteRefreshPromise None ;;;
     Ret tt)
    (fun error => Ret tt).

End AuthService.

(** ** The event loop

    JavaScript runs one piece of code at a time, from one suspension point
    to the next.  The machine keeps the suspended calls; an event picks the
    one that continues.  Which call continues when several could is left to
    the schedule, so every order the engine may choose is a schedule. *)

(** A suspended method: what it waits for and how it continues. *)
Inductive Susp (X : Type) : Type :=
| OnFetch (fid : nat) (k : Completion Response -> Async X)
| OnTick (k : Async X)
| OnPromise (p : nat) (k : Completion (option (gmap string jsval)) -> Async X).
Arguments OnFetch {X} fid k.
Arguments OnTick {X} k.
Arguments OnPromise {X} p k.

(** A method that has been started: suspended, or completed. *)
Inductive Status (X : Type) : Type :=
| Suspended (s : Susp X)
| Finished (c : Completion X).
Arguments Suspended {X} s.
Arguments Finished {X} c.

(** The part of the state that a running method can touch:
    - [this]: the fields of the service object;
    - [promises]: the promises made by [fetchAndStoreTokens()] calls, each
      with the state of the body that settles it; the position of a
      promise names it;
    - [sent]: every request handed to [fetch], in order; the position of a
      request names it. *)
Record Core : Type := {
  this : AuthService;
  promises : list (Status (option (gmap string jsval)));
  sent : list Request
}.

(** Run a method body up to its next suspension point.  [spawn] is what a
    call of [fetchAndStoreTokens()] does before it hands back its promise. *)
Fixpoint exec {X : Type} (spawn : Core -> Core) (code : Async X) (c : Core)
  : Core * Status X :=
  match code with
  | Ret r => (c, Finished (Value r))
  | Throw e => (c, Finished (Thrown e))
  | ReadThis k => exec spawn (k (this c)) c
  | WriteTokenStore v k =>
      exec spawn k
        {| this := {| tokenStore := v; refreshPromise := refreshPromise (this c) |};
           promises := promises c; sent := sent c |}
  | WriteRefreshPromise v k =>
      exec spawn k
        {| this := {| tokenStore := tokenStore (this c); refreshPromise := v |};
           promises := promises c; sent := sent c |}
  | AwaitFetch req k =>
      ({| this := this c; promises := promises c; sent := sent c ++ [req] |},
       Suspended (OnFetch (length (sent c)) k))
  | AwaitTick k => (c, Suspended (OnTick k))
  | CallFetchAndStoreTokens k => exec spawn (k (length (promises c))) (spawn c)
  | AwaitPromise p k => (c, Suspended (OnPromise p k))
  end.

(** A call of [this.fetchAndStoreTokens()]: the body runs at once, up to its
    [await fetch], and a new promise stands for its result.  (The body
    itself makes no such call.) *)
Definition spawn_fetcher (c : Core) : Core :=
  let (c', st) := exec (fun c0 => c0) AuthService.fetchAndStoreTokens c in
  {| this := this c'; promises := promises c' ++ [st]; sent := sent c' |}.

Definition run_code {X : Type} (code : Async X) (c : Core) : Core * Status X :=
  exec spawn_fetcher code c.

(** Continue the body behind promise [p]. *)
Definition run_fetcher (p : nat) (code : Async (option (gmap string jsval))) (c : Core) : Core :=
  let (c', st) := run_code code c in
  {| this := this c'; promises := <[p := st]> (promises c'); sent := sent c' |}.

(** What a suspended method continues with, if it can continue: with the
    value of its promise once that is settled, or at the next turn. *)
Definition resume {X : Type} (c : Core) (st : Status X) : option (Async X) :=
  match st with
  | Suspended (OnTick k) => Some k
  | Suspended (OnPromise p k) =>
      match promises c !! p with
      | Some (Finished v) => Some (k v)
      | _ => None
      end
  | _ => None
  end.

(** ... or with the outcome [o] of its request, when that is delivered. *)
Definition deliver {X : Type} (fid : nat) (o : Completion Response) (st : Status X)
  : option (Async X) :=
  match st with
  | Suspended (OnFetch fid' k) => if Nat.eqb fid fid' then Some (k o) else None
  | _ => None
  end.

(** The whole state: [calls] are the methods invoked from outside, of result
    type [R], in the order of their calls. *)
Record Machine (R : Type) : Type := {
  core : Core;
  calls : list (Status R)
}.
Arguments core {R} m.
Arguments calls {R} m.

(** What can happen between two pieces of code. *)
Inductive Event : Type :=
| Deliver (fid : nat) (o : Completion Response) (* the request [fid] is answered *)
| ResumeFetcher (p : nat)                       (* the body behind [p] continues *)
| ResumeCaller (cid : nat).                     (* caller [cid] continues *)

Definition run_caller {R : Type} (cid : nat) (code : Async R) (m : Machine R) : Machine R :=
  let (c', st) := run_code code (core m) in
  {| core := c'; calls := <[cid := st]> (calls m) |}.

Definition with_core {R : Type} (c : Core) (m : Machine R) : Machine R :=
  {| core := c; calls := calls m |}.

(** The first entry of a table that [pick] lets continue, with its position. *)
Fixpoint first_ready {X : Type} (pick : Status X -> option (Async X)) (i : nat)
    (t : list (Status X)) : option (nat * Async X) :=
  match t with
  | [] => None
  | st :: rest =>
      match pick st with
      | Some code => Some (i, code)
      | None => first_ready pick (S i) rest
      end
  end.

(** A method is invoked: it runs up to its first suspension point. *)
Definition invoke {R : Type} (code : Async R) (m : Machine R) : Machine R :=
  let (c', st) := run_code code (core m) in
  {| core := c'; calls := calls m ++ [st] |}.

(** One event.  An event that names nothing able to continue changes
    nothing. *)
Definition step {R : Type} (e : Event) (m : Machine R) : Machine R :=
  match e with
  | Deliver fid o =>
      match first_ready (deliver fid o) 0 (promises (core m)) with
      | Some (p, code) => with_core (run_fetcher p code (core m)) m
      | None =>
          match first_ready (deliver fid o) 0 (calls m) with
          | Some (cid, code) => run_caller cid code m
          | None => m
          end
      end
  | ResumeFetcher p =>
      match promises (core m) !! p ≫= resume (core m) with
      | Some code => with_core (run_fetcher p code (core m)) m
      | None => m
      end
  | ResumeCaller cid =>
      match calls m !! cid ≫= resume (core m) with
      | Some code => run_caller cid code m
      | None => m
      end
  end.

(** A service with nothing in flight. *)
Definition idle {R : Type} (s : AuthService) : Machine R :=
  {| core := {| this := s; promises := []; sent := [] |}; calls := [] |}.

(** ** One call on its own

    The backend answers the [n]-th request [req] with [b n req].  A lone
    call is driven to its end: whatever can continue does so (the engine
    empties its queue of continuations before it looks at the network), and
    otherwise the oldest outstanding request is answered. *)
Definition Backend : Type := nat -> Request -> Completion Response.

Definition pending_fetch {X : Type} (st : Status X) : option nat :=
  match st with
  | Suspended (OnFetch fid _) => Some fid
  | _ => None
  end.

Definition next_event {R : Type} (b : Backend) (m : Machine R) : option Event :=
  match first_ready (resume (core m)) 0 (promises (core m)) with
  | Some (p, _) => Some (ResumeFetcher p)
  | None =>
      match first_ready (resume (core m)) 0 (calls m) with
      | Some (cid, _) => Some (ResumeCaller cid)
      | None =>
          match head (omap pending_fetch (promises (core m)) ++ omap pending_fetch (calls m)) with
          | Some fid =>
              match sent (core m) !! fid with
              | Some req => Some (Deliver fid (b fid req))
              | None => None
              end
          | None => None
          end
      end
  end.

Fixpoint drive {R : Type} (fuel : nat) (b : Backend) (m : Machine R) : Machine R :=
  match fuel with
  | O => m
  | S fuel' =>
      match next_event b m with
      | Some e => drive fuel' b (step e m)
      | None => m
      end
  end.

(** The outcome of one call made on an idle service [s]: its completion (if
    it completes), the fields of the service afterwards, and the requests
    it sent. *)
Definition solo {R : Type} (code : Async R) (b : Backend) (s : AuthService)
  : option (Completion R) * AuthService * list Request :=
  let m := drive 64 b (invoke code (idle s)) in
  (match calls m !! 0%nat with
   | Some (Finished v) => Some v
   | _ => None
   end,
   this (core m), sent (core m)).

(** What [fetchAndStoreTokens] returns, and stores, when its request is
    answered with [o]. *)
Definition fetched_tokens (o : Completion Response) : option (gmap string jsval) :=
  match o with
  | Value response =>
      if ok response then
        match body response with
        | Some tokens =>
            match JS.prop tokens "access_token", JS.prop tokens "id_token" with
            | Value access, Value id =>
                Some (<["access_token" := access]> (<["id_token" := id]> ∅))
            | _, _ => None
            end
        | None => None
        end
      else None
  | Thrown _ => None
  end.

(** *** Runs of a lone call

    [Runs b n c st c' v]: a machine whose only caller is in state [st], over
    the core [c], is driven by at most [n] events to the point where the
    caller completes with [v], leaving the core [c']. *)
Definition lone {R : Type} (c : Core) (st : Status R) : Machine R :=
  {| core := c; calls := [st] |}.

Inductive Runs {R : Type} (b : Backend)
  : nat -> Core -> Status R -> Core -> Completion R -> Prop :=
| Runs_done n c v : Runs b n c (Finished v) c v
| Runs_next n c s e c1 st1 c' v :
    next_event b (lone c (Suspended s)) = Some e ->
    step e (lone c (Suspended s)) = lone c1 st1 ->
    Runs b n c1 st1 c' v ->
    Runs b (S n) c (Suspended s) c' v.

(** The same for a method that is started on the core [c]. *)
Definition Starts {R : Type} (b : Backend) (n : nat) (code : Async R) (c c' : Core)
    (v : Completion R) : Prop :=
  let (c1, st1) := run_code code c in Runs b n c1 st1 c' v.

(** How a suspended [code] looks inside [bind code f]. *)
Definition susp_bind {A B : Type} (s : Susp A) (f : A -> Async B) : Susp B :=
  match s with
  | OnFetch fid k => OnFetch fid (fun o => bind (k o) f)
  | OnTick k => OnTick (bind k f)
  | OnPromise p k => OnPromise p (fun o => bind (k o) f)
  end.

Definition continue_with {A B : Type} (spawn : Core -> Core) (f : A -> Async B)
    (r : Core * Status A) : Core * Status B :=
  match r with
  | (c, Suspended s) => (c, Suspended (susp_bind s f))
  | (c, Finished (Value a)) => exec spawn (f a) c
  | (c, Finished (Thrown e)) => (c, Finished (Thrown e))
  end.

Definition continue_lone {A B : Type} (f : A -> Async B) (c : Core) (st : Status A)
  : Machine B :=
  let (c', st') := continue_with spawn_fetcher f (c, st) in lone c' st'.

(** *** Schedules of [getTokens] calls

    Any number of [getTokens()] calls, interleaved in any way with the
    events that let suspended code continue. *)
Local Close Scope Z_scope.

Abbreviation Tokens := (option (gmap string jsval)).

Inductive Action : Type :=
| CallGetTokens
| Happens (e : Event).

Definition act (a : Action) (m : Machine Tokens) : Machine Tokens :=
  match a with
  | CallGetTokens => invoke AuthService.getTokens m
  | Happens e => step e m
  end.

Definition run (acts : list Action) (m : Machine Tokens) : Machine Tokens :=
  fold_left (fun m a => act a m) acts m.

(** Code that only reads the service, writes the token store and yields. *)
Inductive Quiet {X : Type} : Async X -> Prop :=
| Quiet_Ret r : Quiet (Ret r)
| Quiet_Read k : (forall s, Quiet (k s)) -> Quiet (ReadThis k)
| Quiet_Write v k : Quiet k -> Quiet (WriteTokenStore v k)
| Quiet_Tick k : Quiet k -> Quiet (AwaitTick k).

(** ... and, inside a [try], may also throw. *)
Inductive QuietOrThrow {X : Type} : Async X -> Prop :=
| QT_Ret r : QuietOrThrow (Ret r)
| QT_Throw e : QuietOrThrow (Throw e)
| QT_Read k : (forall s, QuietOrThrow (k s)) -> QuietOrThrow (ReadThis k)
| QT_Write v k : QuietOrThrow k -> QuietOrThrow (WriteTokenStore v k)
| QT_Tick k : QuietOrThrow k -> QuietOrThrow (AwaitTick k).

Definition Joined (k : Completion Tokens -> Async Tokens) : Prop :=
  forall o, k o = lift o.

Definition Owner (k : Completion Tokens -> Async Tokens) : Prop :=
  forall o, k o = bind (lift o) (fun result => WriteRefreshPromise None (Ret result)).

Definition QuietSusp (s : Susp Tokens) : Prop :=
  match s with
  | OnFetch _ k => forall o, Quiet (k o)
  | OnTick k => Quiet k
  | OnPromise _ _ => False
  end.

Record Inv (m : Machine Tokens) : Prop := {
  inv_promises : forall p st, promises (core m) !! p = Some st ->
      (exists v, st = Finished (Value v))
      \/ (exists s, st = Suspended s /\ QuietSusp s
                    /\ refreshPromise (this (core m)) = Some p);
  inv_calls : forall cid st, calls m !! cid = Some st ->
      (exists v, st = Finished v)
      \/ (exists p k, st = Suspended (OnPromise p k) /\ p < length (promises (core m))
            /\ (Joined k \/ (Owner k /\ refreshPromise (this (core m)) = Some p)));
  inv_owner : forall cid1 cid2 p1 p2 k1 k2,
      calls m !! cid1 = Some (Suspended (OnPromise p1 k1)) -> Owner k1 ->
      calls m !! cid2 = Some (Suspended (OnPromise p2 k2)) -> Owner k2 ->
      cid1 = cid2;
  inv_registered : forall p, refreshPromise (this (core m)) = Some p ->
      p < length (promises (core m));
  inv_sent : length (sent (core m)) = length (promises (core m))
}.

(** A caller follows promise [p]: it waits for it, or has completed with
    the value that [p] was settled with. *)
Definition Follows (m : Machine Tokens) (cid p : nat) : Prop :=
  (exists k, calls m !! cid = Some (Suspended (OnPromise p k)))
  \/ (exists x, calls m !! cid = Some (Finished (Value x))
                /\ promises (core m) !! p = Some (Finished (Value x))).

Local Open Scope Z_scope.

(** ** The [Chat] component ([frontend/components/Chat.tsx]) *)

Module Chat.

Inductive Sender : Type := User | Agent.   (* 'user' | 'AAD Agent' *)

(** lines 7-12.  [content] is declared a string, but the agent's reply is
    taken from the response body as it comes. *)
Record Message : Type := {
  id : string;
  content : jsval;
  sender : Sender;
  timestamp : Z
}.

(** The [useState] cells, lines 16-23. *)
Record State : Type := {
  isAuthenticated : bool;
  threadId : option string;
  messages : list Message;
  inputMessage : string;
  isLoading : bool;
  pendingMessage : string;
  shouldSendMessage : bool
}.

Definition initial : State :=
  {| isAuthenticated := false; threadId := None; messages := []; inputMessage := "";
     isLoading := false; pendingMessage := ""; shouldSendMessage := false |}.

(** Two readings of the clock: [Date.now()] and [new Date()]. *)
Definition Clock : Type := (Z * Z)%type.

(** lines 51-54, once [authService.checkAuthStatus()] has settled.  A
    rejection is not handled and leaves the state as it is. *)
Definition checkAuthStatus (authenticated : Completion bool) (st : State) : State :=
  match authenticated with
  | Value a =>
      {| isAuthenticated := a; threadId := threadId st; messages := messages st;
         inputMessage := inputMessage st; isLoading := isLoading st;
         pendingMessage := pendingMessage st; shouldSendMessage := shouldSendMessage st |}
  | Thrown _ => st
  end.

(** lines 74-85 *)
Definition sendMessage (clock : Clock) (st : State) : State :=
  if negb (JS.truthy (JStr (Str.trim (inputMessage st)))) || isLoading st then st
  else
    let userMessage :=
      {| id := pretty (fst clock); content := JStr (inputMessage st);
         sender := User; timestamp := snd clock |} in
    {| isAuthenticated := isAuthenticated st; threadId := threadId st;
       messages := messages st ++ [userMessage];
       inputMessage := "";
       isLoading := isLoading st;
       pendingMessage := inputMessage st;
       shouldSendMessage := true |}.

(** line 108: [data.messages.filter((msg) => msg.type === 'ai')]; reading
    [type] of a [null] element throws. *)
Fixpoint filter_ai (items : list jsval) : Completion (list jsval) :=
  match items with
  | [] => Value []
  | msg :: rest =>
      JS.and_then (JS.prop msg "type") (fun ty =>
      JS.and_then (filter_ai rest) (fun kept =>
      Value (if JS.is_string "ai" ty then msg :: kept else kept)))
  end.

(** lines 106-112 *)
Definition agentContent (data : jsval) : Completion jsval :=
  JS.and_then (JS.prop data "messages") (fun msgs =>
  if JS.truthy msgs && JS.isArray msgs then
    match msgs with
    | JArr items =>
        JS.and_then (filter_ai items) (fun aiMessages =>
        match last aiMessages with
        | Some m => JS.prop m "content"
        | None => Value (JStr "")
        end)
    | _ => Value (JStr "")
    end
  else Value (JStr "")).

(** lines 102-126: the content of the message that the [try] block
    appends. *)
Definition reply (response : Response) : Completion jsval :=
  if negb (ok response)
  then Thrown (Error ("Failed to get agent response: " +:+ pretty (status response)))
  else
    JS.and_then (parse response) (fun data =>
    JS.and_then (agentContent data) (fun c =>
    Value (if JS.truthy c then c else JStr "No response received"))).

(** lines 92-137, once [authService.authenticatedFetch] has settled: the
    [try] block, the [catch] and the [finally]. *)
Definition deliverMessage (fetched : Completion Response) (clock : Clock) (st : State) : State :=
  let text :=
    match JS.and_then fetched reply with
    | Value c => c
    | Thrown error =>
        JStr ("Sorry, there was an error processing your message. Error: "
              +:+ JS.describe error)
    end in
  let agentMessage :=
    {| id := pretty (fst clock + 1); content := text; sender := Agent;
       timestamp := snd clock |} in
  {| isAuthenticated := isAuthenticated st; threadId := threadId st;
     messages := messages st ++ [agentMessage];
     inputMessage := inputMessage st;
     isLoading := false;
     pendingMessage := "";
     shouldSendMessage := shouldSendMessage st |}.

(** lines 163-228: which of the two screens is returned. *)
Inductive View : Type :=
| SignIn                                   (* "Sign in with Microsoft" *)
| ChatInterface (shown : list Message) (thinking : bool).

Definition render (st : State) : View :=
  if negb (isAuthenticated st) then SignIn
  else ChatInterface (messages st) (isLoading st).

End Chat.

(** ** The [AuthCallback] page *)

Module AuthCallback.

(** [searchParams.get(name)]: the first value given for [name], or [null]. *)
Fixpoint get (name : string) (params : list (string * string)) : option string :=
  match params with
  | [] => None
  | (k, v) :: rest => if String.eqb k name then Some v else get name rest
  end.

(** Truthiness of a [string | null]. *)
Definition truthy (v : option string) : bool :=
  match v with
  | Some s => negb (String.eqb s "")
  | None => false
  end.

(** [handleCallback], the request it sends. *)
Definition handleCallback (code : string) (scopes : option string) : Request :=
  let u := "/api/auth/callback?code=" +:+ Str.encodeURIComponent code in
  let u := match scopes with
           | Some s => if truthy scopes then u +:+ "&scopes=" +:+ Str.encodeURIComponent s else u
           | None => u
           end in
  {| url := u; init := AuthService.get_with_credentials |}.

Definition processing : string := "Processing authentication...".

(** The effect run when the page is mounted: the status it sets, if any,
    and the request it sends, if any. *)
Definition on_mount (params : list (string * string)) : option string * option Request :=
  let code := get "code" params in
  let error := get "error" params in
  let scopes := get "scope" params in
  if truthy error then (Some ("Authentication failed: " +:+ default "" error), None)
  else
    match code with
    | Some c =>
        if truthy code && negb (truthy error) then (None, Some (handleCallback c scopes))
        else (Some "Missing authentication parameters", None)
    | None => (Some "Missing authentication parameters", None)
    end.

(** The [then] and [catch] handlers: the status set, and whether the page
    redirects to ['/']. *)
Definition on_settled (result : Completion Response) : string * bool :=
  match result with
  | Value response =>
      if ok response then ("Authentication successful! Redirecting...", true)
      else ("Authentication failed: " +:+ pretty (status response) +:+ " - "
            +:+ statusText response, false)
  | Thrown error => ("Authentication error: " +:+ JS.message error, false)
  end.

(** What the page shows for a status. *)
Inductive View : Type :=
| Spinner (text : string)
| Text (green : bool) (text : string).

Definition render (st : string) : View :=
  if String.eqb st processing then Spinner st
  else Text (Str.startsWith "Authentication successful" st) st.

End AuthCallback.

(** ** The claims in their own words

    Definitions that follow the wording of the specification, to be
    compared with the code above. *)

Module Spec.

(** "the messages array" of a response body, if it has one *)
Definition messages_array (data : jsval) : option (list jsval) :=
  match JS.prop data "messages" with
  | Value (JArr items) => Some items
  | _ => None
  end.

(** "element of type 'ai'" *)
Definition type_is_ai (msg : jsval) : bool :=
  match JS.prop msg "type" with
  | Value ty => JS.is_string "ai" ty
  | Thrown _ => false
  end.

Definition content_of (msg : jsval) : jsval :=
  match JS.prop msg "content" with
  | Value c => c
  | Thrown _ => JUndefined
  end.

Definition no_response : jsval := JStr "No response received".

(** "the content of the last element of type 'ai' in the messages array;
    if the body has no messages array, the array contains no element of
    type 'ai', or that content is empty, the literal message".  Empty is
    read as falsy: the empty string, or no content at all. *)
Definition expected_reply (data : jsval) : jsval :=
  match messages_array data with
  | Some items =>
      match last (List.filter type_is_ai items) with
      | Some m => if JS.truthy (content_of m) then content_of m else no_response
      | None => no_response
      end
  | None => no_response
  end.

End Spec.

(** ** More of [Chat.tsx]: the handlers around a delivery *)

Module Json.

Definition dq : ascii := ascii_of_N 34.          (* the double quote *)
Definition backslash : ascii := ascii_of_N 92.

Definition hex_lower (d : N) : ascii :=
  ascii_of_N (if (d <? 10)%N then 48 + d else 87 + d)%N.

(** One character inside a JSON string, as [JSON.stringify] writes it: the
    quote, the backslash and the control characters are escaped, everything
    else is copied. *)
Definition escape (c : ascii) : string :=
  let b := Str.code c in
  if (b =? 34)%N then String backslash (String dq "")
  else if (b =? 92)%N then String backslash (String backslash "")
  else if (b =? 8)%N then "\b"
  else if (b =? 9)%N then "\t"
  else if (b =? 10)%N then "\n"
  else if (b =? 12)%N then "\f"
  else if (b =? 13)%N then "\r"
  else if (b <? 32)%N
       then "\u00" +:+ String (hex_lower (b / 16)) (String (hex_lower (b mod 16)) "")
  else String c "".

Fixpoint escape_all (s : string) : string :=
  match s with
  | EmptyString => EmptyString
  | String c r => escape c +:+ escape_all r
  end.

(** [JSON.stringify(s)] for a string [s] *)
Definition quote (s : string) : string :=
  String dq (escape_all s +:+ String dq "").

End Json.

Module ChatUI.

(** lines 41-45: the condition under which the effect calls
    [deliverMessage]. *)
Definition should_deliver (st : Chat.State) : bool :=
  AuthCallback.truthy (Chat.threadId st)
  && Chat.shouldSendMessage st
  && JS.truthy (JStr (Chat.pendingMessage st)).

(** lines 96-99:
    [JSON.stringify({assistant_id: 'AAD Agent', input: {messages: [pendingMessage]}})] *)
Definition run_body (pendingMessage : string) : string :=
  "{" +:+ Json.quote "assistant_id" +:+ ":" +:+ Json.quote "AAD Agent" +:+ ","
  +:+ Json.quote "input" +:+ ":{" +:+ Json.quote "messages" +:+ ":["
  +:+ Json.quote pendingMessage +:+ "]}}".

(** lines 94-100: the arguments of [authService.authenticatedFetch]. *)
Definition run_request (thread pendingMessage : string) : string * RequestInit :=
  ("/api/threads/" +:+ thread +:+ "/runs/wait",
   {| method := Some "POST"; credentials := None;
      headers := <["Content-Type" := JStr "application/json"]> ∅;
      req_body := Some (run_body pendingMessage) |}).

(** lines 87-100, up to the [await]: nothing happens without a thread or
    without a pending message; otherwise the two cells are set and the
    request is handed to [authenticatedFetch]. *)
Definition deliverMessage_start (st : Chat.State)
  : option (Chat.State * (string * RequestInit)) :=
  match Chat.threadId st with
  | Some thread =>
      if negb (AuthCallback.truthy (Some thread))
         || negb (JS.truthy (JStr (Chat.pendingMessage st)))
      then None
      else
        Some ({| Chat.isAuthenticated := Chat.isAuthenticated st;
                 Chat.threadId := Chat.threadId st;
                 Chat.messages := Chat.messages st;
                 Chat.inputMessage := Chat.inputMessage st;
                 Chat.isLoading := true;
                 Chat.pendingMessage := Chat.pendingMessage st;
                 Chat.shouldSendMessage := false |},
              run_request thread (Chat.pendingMessage st))
  | None => None
  end.

(** lines 140-145.  [e.preventDefault()] acts on the event, not on the
    state. *)
Definition handleKeyPress (key : string) (shiftKey : bool) (clock : Chat.Clock)
    (st : Chat.State) : Chat.State :=
  if String.eqb key "Enter" && negb shiftKey then Chat.sendMessage clock st else st.


(** lines 154-161, once [authService.getAuthUrl()] has settled: the value
    assigned to [window.location.href], if any.  The [catch] only logs. *)
Definition handleLogin (settled : Completion jsval) : option jsval :=
  match settled with
  | Value authUrl => Some authUrl
  | Thrown _ => None
  end.


Definition send_disabled (st : Chat.State) : bool :=
  Chat.isLoading st || negb (JS.truthy (JStr (Str.trim (Chat.inputMessage st)))).

(** line 218: [onChange] of the input. *)
Definition setInputMessage (value : string) (st : Chat.State) : Chat.State :=
  {| Chat.isAuthenticated := Chat.isAuthenticated st; Chat.threadId := Chat.threadId st;
     Chat.messages := Chat.messages st; Chat.inputMessage := value;
     Chat.isLoading := Chat.isLoading st; Chat.pendingMessage := Chat.pendingMessage st;
     Chat.shouldSendMessage := Chat.shouldSendMessage st |}.




(** line 68, for a thread id that is a string. *)
Definition setThreadId (thread : string) (st : Chat.State) : Chat.State :=
  {| Chat.isAuthenticated := Chat.isAuthenticated st; Chat.threadId := Some thread;
     Chat.messages := Chat.messages st; Chat.inputMessage := Chat.inputMessage st;
     Chat.isLoading := Chat.isLoading st; Chat.pendingMessage := Chat.pendingMessage st;
     Chat.shouldSendMessage := Chat.shouldSendMessage st |}.

End ChatUI.

(** Counting one character in a string. *)
Fixpoint count_char (x : ascii) (s : string) : nat :=
  match s with
  | EmptyString => 0%nat
  | String c r => ((if Ascii.eqb c x then 1 else 0) + count_char x r)%nat
  end.

(** A token store is well formed when it is [null] or a record with exactly
    the two fields of [TokenData]. *)
Definition two_fields (v : option (gmap string jsval)) : Prop :=
  match v with
  | None => True
  | Some t => dom t = ({["access_token"; "id_token"]} : gset string)
  end.

(** A request that [authenticatedFetch u options] sends to [u]: the
    caller's options, with the headers made of some tokens. *)
Definition to_url (u : string) (options : RequestInit) (q : Request) : Prop :=
  exists r, q = {| url := u; init := AuthService.with_auth options (AuthService.auth_headers r) |}.

(** ** More on schedules of [getTokens] calls *)

Local Close Scope Z_scope.

(** [Body throws P n code]: [code] only reads the service, writes values
    satisfying [P] to the token store and yields, at most [n] times; it
    throws only if [throws] allows it. *)
Inductive Body (throws : bool) (P : Tokens -> Prop) {X : Type} : nat -> Async X -> Prop :=
| Body_Ret n r : Body throws P n (Ret r)
| Body_Throw n e : throws = true -> Body throws P n (Throw e)
| Body_Read n k : (forall s, Body throws P n (k s)) -> Body throws P n (ReadThis k)
| Body_Write n v k : P v -> Body throws P n k -> Body throws P n (WriteTokenStore v k)
| Body_Tick n k : Body throws P n k -> Body throws P (S n) (AwaitTick k).

(** A suspended [fetchAndStoreTokens] body: it waits for a request that was
    sent, or for its next turn. *)
Definition BodySusp (requests : list Request) (s : Susp Tokens) : Prop :=
  match s with
  | OnFetch fid k => is_Some (requests !! fid) /\ forall o, Body false two_fields 1 (k o)
  | OnTick k => Body false two_fields 0 k
  | OnPromise _ _ => False
  end.

(** How a suspended body continues: with the answer to its request, or at
    its next turn. *)
Definition continues (s : Susp Tokens) (code : Async Tokens) : Prop :=
  match s with
  | OnFetch _ k => exists o, code = k o
  | OnTick k => code = k
  | OnPromise _ _ => False
  end.

(** Besides [Inv]: the bodies in flight are bodies of [fetchAndStoreTokens],
    and a registered promise has the caller that registered it waiting. *)
Record Live (m : Machine Tokens) : Prop := {
  live_bodies : forall p s, promises (core m) !! p = Some (Suspended s) ->
      BodySusp (sent (core m)) s;
  live_owner : forall p, refreshPromise (this (core m)) = Some p ->
      exists cid k, calls m !! cid = Some (Suspended (OnPromise p k)) /\ Owner k
}.

(** Every call that has completed has returned. *)
Definition Resolved (m : Machine Tokens) : Prop :=
  forall cid v, calls m !! cid = Some (Finished v) -> exists x, v = Value x.

(** The number of [getTokens()] calls in a schedule. *)
Fixpoint calls_made (acts : list Action) : nat :=
  match acts with
  | [] => 0
  | CallGetTokens :: rest => S (calls_made rest)
  | Happens _ :: rest => calls_made rest
  end.

(** The events still needed: two for a body that waits for its answer, one
    for a body or a caller that waits for its turn. *)
Definition body_work (st : Status Tokens) : nat :=
  match st with
  | Suspended (OnFetch _ _) => 2
  | Suspended _ => 1
  | Finished _ => 0
  end.

Definition waiting (st : Status Tokens) : nat :=
  match st with
  | Suspended _ => 1
  | Finished _ => 0
  end.

Definition work (m : Machine Tokens) : nat :=
  sum_list (map body_work (promises (core m))) + sum_list (map waiting (calls m)).

(** ** Calls of different methods on one service

    The machine keeps the calls of one result type.  To put calls of
    several methods side by side, what each returns is tagged with the
    method it comes from; tagging adds no suspension point. *)
Inductive Returned : Type :=
| RTokens (tokens : Tokens)          (* from [getTokens] *)
| RVoid                              (* from [logout] *)
| RResponse (response : Response).   (* from [authenticatedFetch] *)

Definition returning {A : Type} (tag : A -> Returned) (code : Async A) : Async Returned :=
  bind code (fun a => Ret (tag a)).

Inductive Method : Type :=
| GetTokens
| Logout
| AuthenticatedFetch (u : string) (options : RequestInit).

Definition method_body (f : Method) : Async Returned :=
  match f with
  | GetTokens => returning RTokens AuthService.getTokens
  | Logout => returning (fun _ => RVoid) AuthService.logout
  | AuthenticatedFetch u options =>
      returning RResponse (AuthService.authenticatedFetch u options)
  end.

Inductive MixedAction : Type :=
| Invoke (f : Method)
| Occurs (e : Event).

Definition mixed_act (a : MixedAction) (m : Machine Returned) : Machine Returned :=
  match a with
  | Invoke f => invoke (method_body f) m
  | Occurs e => step e m
  end.

Definition mixed_run (acts : list MixedAction) (m : Machine Returned) : Machine Returned :=
  fold_left (fun m a => mixed_act a m) acts m.

Local Open Scope Z_scope.

(** * Theorems *)

(** ** Strings *)

Lemma strip_white_space (c rest : string) :
  In c Str.white_space -> Str.strip false (c +:+ rest) = Str.strip false rest.
Proof.
  intros H. unfold Str.white_space in H. simpl in H.
  repeat (destruct H as [<- | H]; [reflexivity |]).
  destruct H.
Qed.

Lemma trim_blank (s : string) : Str.Blank s -> Str.trim s = "".
Proof.
  intros [cs [Hcs ->]].
  assert (Hs : Str.strip false (fold_right String.append "" cs) = "").
  { induction Hcs as [| c cs Hc _ IH]; [reflexivity |].
    simpl. rewrite strip_white_space by assumption. exact IH. }
  unfold Str.trim. rewrite Hs. reflexivity.
Qed.

Lemma encodeURIComponent_app (a b : string) :
  Str.encodeURIComponent (a +:+ b) = Str.encodeURIComponent a +:+ Str.encodeURIComponent b.
Proof.
  induction a as [| c a IH]; [reflexivity |].
  simpl. rewrite IH. destruct (Str.unreserved (Str.code c)); reflexivity.
Qed.

(** ** [Chat]: sending a message *)

(** C9. When the input is empty or white space only, or while a message is
    still being processed ([isLoading]), [sendMessage] leaves every state
    cell as it was: the messages, the pending message, the input and the
    send flag. *)
Theorem sendMessage_ignored (clock : Chat.Clock) (st : Chat.State) :
  Str.Blank (Chat.inputMessage st) \/ Chat.isLoading st = true ->
  Chat.sendMessage clock st = st.
Proof.
  intros [Hblank | Hload]; unfold Chat.sendMessage.
  - rewrite (trim_blank _ Hblank). reflexivity.
  - rewrite Hload, orb_true_r. reflexivity.
Qed.

Lemma sendMessage_ignored_witness :
  let st := {| Chat.isAuthenticated := true; Chat.threadId := Some "t1";
               Chat.messages := []; Chat.inputMessage := "  " +:+ Str.utf8 [9; 194; 160]%N;
               Chat.isLoading := false; Chat.pendingMessage := "";
               Chat.shouldSendMessage := false |} in
  Chat.sendMessage (1700000000000, 1700000000000) st = st.
Proof.
  intros st. apply sendMessage_ignored. left.
  exists [" "; " "; Str.utf8 [9]%N; Str.utf8 [194; 160]%N]. split.
  - repeat match goal with
           | |- Forall _ _ => constructor
           | |- In _ _ =>
               unfold Str.white_space; simpl; repeat (first [left; reflexivity | right])
           end.
  - reflexivity.
Defined.

(** A message that is sent does change the state. *)
Example sendMessage_sends :
  let st := {| Chat.isAuthenticated := true; Chat.threadId := Some "t1";
               Chat.messages := []; Chat.inputMessage := " hello ";
               Chat.isLoading := false; Chat.pendingMessage := "";
               Chat.shouldSendMessage := false |} in
  Chat.sendMessage (5, 6) st
  = {| Chat.isAuthenticated := true; Chat.threadId := Some "t1";
       Chat.messages := [ {| Chat.id := "5"; Chat.content := JStr " hello ";
                             Chat.sender := Chat.User; Chat.timestamp := 6 |} ];
       Chat.inputMessage := ""; Chat.isLoading := false;
       Chat.pendingMessage := " hello "; Chat.shouldSendMessage := true |}.
Proof. reflexivity. Qed.

(** ** The [AuthCallback] page *)

Lemma append_nonempty_neq (a b : string) : b <> "" -> a +:+ b <> a.
Proof.
  intros Hb. induction a as [| c a IH]; simpl.
  - exact Hb.
  - intros H. injection H as H. exact (IH H).
Qed.

Lemma truthy_Some (s : string) : AuthCallback.truthy (Some s) = true <-> s <> "".
Proof.
  unfold AuthCallback.truthy. destruct (String.eqb_spec s ""); simpl; split; congruence.
Qed.

(** [searchParams.get] returns the first value given for a name. *)
Lemma get_first (name : string) (params : list (string * string)) (v : string) :
  AuthCallback.get name params = Some v
  <-> exists before after,
        params = (before ++ (name, v) :: after)%list
        /\ Forall (fun kv => fst kv <> name) before.
Proof.
  induction params as [| [k x] params IH]; simpl.
  - split; [discriminate |]. intros (before & after & H & _). destruct before; discriminate H.
  - destruct (String.eqb_spec k name) as [-> | Hne].
    + split.
      * intros [= ->]. exists [], params. split; [reflexivity | constructor].
      * intros (before & after & H & Hb). destruct before as [| [k' x'] before].
        -- injection H as -> _. reflexivity.
        -- injection H as -> _ _. inversion Hb as [| ? ? Hk _]. contradiction Hk. reflexivity.
    + rewrite IH. split.
      * intros (before & after & -> & Hb). exists ((k, x) :: before), after.
        split; [reflexivity |]. constructor; [exact Hne | exact Hb].
      * intros (before & after & H & Hb). destruct before as [| [k' x'] before].
        -- injection H as -> _ _. contradiction Hne. reflexivity.
        -- injection H as _ _ ->. inversion Hb. eauto.
Qed.

(** C5, as stated, fails: a callback URL that carries an empty [error]
    parameter next to a code ([?code=abc&error=]) does contain an error
    parameter, and the page still sends the exchange request.  It does so
    too when a second, non-empty [error] parameter follows
    ([?code=abc&error=&error=access_denied]): only the first value given
    for a name is read. *)
Lemma callback_empty_error_exchanges :
  (let params := [("code", "abc"); ("error", "")] in
   ~ (is_Some (AuthCallback.get "error" params) ->
      snd (AuthCallback.on_mount params) = None))
  /\ (let params := [("code", "abc"); ("error", ""); ("error", "access_denied")] in
      In ("error", "access_denied") params
      /\ AuthCallback.on_mount params
         = (None, Some {| url := "/api/auth/callback?code=abc";
                          init := AuthService.get_with_credentials |})).
Proof.
  split.
  - intros params H.
    assert (Hsome : is_Some (AuthCallback.get "error" params)) by (eexists; reflexivity).
    specialize (H Hsome). discriminate H.
  - intros params. split; [| reflexivity]. simpl. auto.
Qed.

(** The same for [scope]: [?code=abc&scope=] carries a scope parameter, and
    nothing is appended to the request. *)
Example callback_empty_scope_not_appended :
  let params := [("code", "abc"); ("scope", "")] in
  AuthCallback.get "scope" params = Some ""
  /\ snd (AuthCallback.on_mount params)
     = Some {| url := "/api/auth/callback?code=abc";
               init := AuthService.get_with_credentials |}.
Proof. split; reflexivity. Qed.

(** And when a second, non-empty [scope] follows an empty one. *)
Example callback_second_scope_ignored :
  let params := [("code", "abc"); ("scope", ""); ("scope", "openid")] in
  snd (AuthCallback.on_mount params)
  = Some {| url := "/api/auth/callback?code=abc";
            init := AuthService.get_with_credentials |}.
Proof. reflexivity. Qed.

Example callback_with_scope :
  snd (AuthCallback.on_mount [("code", "a/b"); ("scope", "User.Read openid")])
  = Some {| url := "/api/auth/callback?code=a%2Fb&scopes=User.Read%20openid";
            init := AuthService.get_with_credentials |}.
Proof. reflexivity. Qed.

(** C5, amended.  The page reads [code], [error] and [scope] with
    [searchParams.get], which gives the first value of a name (and [null]
    when the name does not occur), and tests them for truthiness, so an
    empty value counts as no value.  With [code], [error] and [scope] the
    values read in this way:
    - With a non-empty [error] no request is sent and the page shows the
      failure text.
    - A request is sent exactly when [code] is non-empty and [error] is
      absent or empty; it is the [GET] of [/api/auth/callback?code=...]
      with credentials.
    - [&scopes=...] is appended exactly when [scope] is non-empty.
    - The value read for a name is the one of its first occurrence in the
      query string; later occurrences of the name are not looked at. *)
Theorem callback_exchange (params : list (string * string)) :
  let code := AuthCallback.get "code" params in
  let error := AuthCallback.get "error" params in
  let scope := AuthCallback.get "scope" params in
  let base c := "/api/auth/callback?code=" +:+ Str.encodeURIComponent c in
  (forall e, error = Some e -> e <> "" ->
     AuthCallback.on_mount params = (Some ("Authentication failed: " +:+ e), None)
     /\ AuthCallback.render ("Authentication failed: " +:+ e)
        = AuthCallback.Text false ("Authentication failed: " +:+ e))
  /\ (forall req, snd (AuthCallback.on_mount params) = Some req <->
        exists c, code = Some c /\ c <> "" /\ AuthCallback.truthy error = false
                  /\ req = AuthCallback.handleCallback c scope)
  /\ (forall c, init (AuthCallback.handleCallback c scope) = AuthService.get_with_credentials)
  /\ (forall c s, scope = Some s -> s <> "" ->
        url (AuthCallback.handleCallback c scope)
        = base c +:+ "&scopes=" +:+ Str.encodeURIComponent s)
  /\ (forall c, url (AuthCallback.handleCallback c scope) = base c
                <-> AuthCallback.truthy scope = false)
  /\ (forall name v,
        AuthCallback.get name params = Some v
        <-> exists before after,
              params = (before ++ (name, v) :: after)%list
              /\ Forall (fun kv => fst kv <> name) before).
Proof.
  intros code error scope base.
  refine (conj _ (conj _ (conj _ (conj _ (conj _ (fun name v => get_first name params v)))))).
  - intros e He Hne. split.
    + unfold AuthCallback.on_mount. fold error. rewrite He.
      apply truthy_Some in Hne. rewrite Hne. reflexivity.
    + reflexivity.
  - intros req. split.
    + unfold AuthCallback.on_mount. fold error code scope.
      destruct (AuthCallback.truthy error) eqn:He; simpl; [discriminate |].
      destruct code as [c |]; [| discriminate].
      destruct (AuthCallback.truthy (Some c)) eqn:Hc; simpl; [| discriminate].
      intros [= <-]. exists c. apply truthy_Some in Hc. auto.
    + intros (c & Hc & Hne & He & ->).
      unfold AuthCallback.on_mount. fold error code scope.
      rewrite He, Hc. apply truthy_Some in Hne. rewrite Hne. reflexivity.
  - reflexivity.
  - intros c s Hs Hne. rewrite Hs. unfold AuthCallback.handleCallback.
    apply truthy_Some in Hne. rewrite Hne. reflexivity.
  - intros c. split.
    + intros H. unfold AuthCallback.handleCallback in H.
      destruct scope as [s |]; [| reflexivity].
      destruct (AuthCallback.truthy (Some s)) eqn:Hs; [| reflexivity].
      exfalso. simpl in H. revert H.
      apply (append_nonempty_neq (base c) ("&scopes=" +:+ Str.encodeURIComponent s)).
      discriminate.
    + intros H. unfold AuthCallback.handleCallback.
      destruct scope as [s |]; [| reflexivity]. rewrite H. reflexivity.
Qed.

(** ** [Chat]: the agent's reply *)

Lemma filter_ai_spec (items : list jsval) :
  Forall (fun m => JS.nullish m = false) items ->
  Chat.filter_ai items = Value (List.filter Spec.type_is_ai items).
Proof.
  induction 1 as [| m items Hm _ IH]; [reflexivity |].
  simpl. rewrite IH. unfold Spec.type_is_ai.
  destruct m; try discriminate Hm; reflexivity.
Qed.

Lemma last_filter_not_nullish (items : list jsval) (m : jsval) :
  last (List.filter Spec.type_is_ai items) = Some m -> JS.nullish m = false.
Proof.
  intros H. apply last_Some_elem_of in H. apply list_elem_of_In in H.
  apply filter_In in H as [_ H]. unfold Spec.type_is_ai in H.
  destruct m; simpl in *; congruence.
Qed.

(** C8, as stated, fails: the body [null] has no messages array, and the
    chat appends its error text, not 'No response received'. *)
Lemma reply_to_null_body :
  let response := {| status := 200; statusText := "OK"; body := Some JNull |} in
  Spec.expected_reply JNull = JStr "No response received"
  /\ ~ (Chat.messages (Chat.deliverMessage (Value response) (1000, 1001) Chat.initial)
        = [ {| Chat.id := "1001"; Chat.content := Spec.expected_reply JNull;
               Chat.sender := Chat.Agent; Chat.timestamp := 1001 |} ]).
Proof. intros response. split; [reflexivity |]. intros H. discriminate H. Qed.

Example reply_to_null_body_text :
  Chat.messages
    (Chat.deliverMessage
       (Value {| status := 200; statusText := "OK"; body := Some JNull |})
       (1000, 1001) Chat.initial)
  = [ {| Chat.id := "1001";
         Chat.content :=
           JStr ("Sorry, there was an error processing your message. Error: "
                 +:+ "TypeError: Cannot read properties of null (reading 'messages')");
         Chat.sender := Chat.Agent; Chat.timestamp := 1001 |} ].
Proof. reflexivity. Qed.

(** A [null] element in the array does the same. *)
Example reply_to_null_element :
  let data := JObj [("messages", JArr [JObj [("type", JStr "ai"); ("content", JStr "hi")]; JNull])] in
  Spec.expected_reply data = JStr "hi"
  /\ Chat.reply {| status := 200; statusText := "OK"; body := Some data |}
     = Thrown (NullDeref "type").
Proof. split; reflexivity. Qed.

(** C8, amended.  For every 2xx response whose body parses to a value other
    than [null], and whose messages array (if it has one) holds no [null]
    element, the chat appends one message from the agent: the content of
    the last element of type 'ai' when that content is truthy, and the
    literal 'No response received' when there is no messages array, no
    element of type 'ai', or the content is falsy. *)
Theorem deliverMessage_reply
    (response : Response) (data : jsval) (clock : Chat.Clock) (st : Chat.State) :
  ok response = true ->
  body response = Some data ->
  JS.nullish data = false ->
  (forall items, Spec.messages_array data = Some items ->
                 Forall (fun m => JS.nullish m = false) items) ->
  Chat.messages (Chat.deliverMessage (Value response) clock st)
  = (Chat.messages st
     ++ [ {| Chat.id := pretty (fst clock + 1);
             Chat.content := Spec.expected_reply data;
             Chat.sender := Chat.Agent;
             Chat.timestamp := snd clock |} ])%list.
Proof.
  intros Hok Hbody Hdata Hitems.
  unfold Chat.deliverMessage. simpl. f_equal. f_equal. f_equal.
  unfold Chat.reply, parse. rewrite Hok, Hbody. simpl.
  unfold Chat.agentContent, Spec.expected_reply, Spec.messages_array in *.
  destruct (JS.prop data "messages") as [msgs | e] eqn:Hm.
  2:{ destruct data; simpl in *; congruence. }
  simpl. destruct msgs as [| | b | n | s | items | fields]; simpl; try reflexivity.
  - destruct b; reflexivity.
  - destruct (negb (n =? 0)); reflexivity.
  - destruct (negb (String.eqb s "")); reflexivity.
  - rewrite (filter_ai_spec items) by (apply Hitems; reflexivity). simpl.
    destruct (last (List.filter Spec.type_is_ai items)) as [m |] eqn:Hlast;
      [| reflexivity].
    apply last_filter_not_nullish in Hlast. unfold Spec.content_of.
    destruct m; simpl in *; try discriminate Hlast; try reflexivity.
Qed.

(** ** Lone calls: sequencing *)

Lemma exec_bind {A B : Type} (spawn : Core -> Core) (code : Async A) (f : A -> Async B) (c : Core) :
  exec spawn (bind code f) c = continue_with spawn f (exec spawn code c).
Proof.
  revert c. induction code as [r | e | k IH | v k IH | v k IH | req k IH | k IH | k IH | p k IH];
    intros c; simpl; auto.
Qed.

Lemma Runs_mono {R} (b : Backend) n n' c (st : Status R) c' v :
  (n <= n')%nat -> Runs b n c st c' v -> Runs b n' c st c' v.
Proof.
  intros Hle H. revert n' Hle. induction H as [n c v | n c s e c1 st1 c' v He Hs _ IH]; intros n' Hle.
  - constructor.
  - destruct n' as [| n']; [lia |]. econstructor; eauto. apply IH. lia.
Qed.

Lemma drive_quiet {R} (b : Backend) n (m : Machine R) :
  next_event b m = None -> drive n b m = m.
Proof. intros H. destruct n; simpl; [| rewrite H]; reflexivity. Qed.

Lemma Runs_drive {R} (b : Backend) n c (st : Status R) c' v :
  Runs b n c st c' v ->
  next_event b (lone c' (Finished v)) = None ->
  drive n b (lone c st) = lone c' (Finished v).
Proof.
  induction 1 as [n c v | n c s e c1 st1 c' v He Hs _ IH]; intros Hq.
  - apply drive_quiet, Hq.
  - simpl. rewrite He, Hs. apply IH, Hq.
Qed.

Lemma first_ready_bind {A B} (f : A -> Async B) (c : Core) (s : Susp A) i :
  first_ready (resume c) i [Suspended (susp_bind s f)]
  = match first_ready (resume c) i [Suspended s] with
    | Some (j, code) => Some (j, bind code f)
    | None => None
    end.
Proof.
  destruct s; simpl; try reflexivity.
  destruct (promises c !! p) as [[|]|]; reflexivity.
Qed.

Lemma next_event_bind {A B} (b : Backend) (f : A -> Async B) (c : Core) (s : Susp A) :
  next_event b (lone c (Suspended (susp_bind s f))) = next_event b (lone c (Suspended s)).
Proof.
  unfold next_event, lone. cbn [core calls].
  destruct (first_ready (resume c) 0 (promises c)) as [[p code] |]; [reflexivity |].
  rewrite first_ready_bind.
  destruct (first_ready (resume c) 0 [Suspended s]) as [[j code] |]; [reflexivity |].
  destruct s; reflexivity.
Qed.

Ltac same_shape := solve [eexists _, _; split; reflexivity].

Lemma run_caller_bind {A B} (f : A -> Async B) (code : Async A) (c : Core) (s : Susp A) :
  exists c' st',
    run_caller 0 code (lone c (Suspended s)) = lone c' st'
    /\ run_caller 0 (bind code f) (lone c (Suspended (susp_bind s f))) = continue_lone f c' st'.
Proof.
  unfold run_caller, lone. cbn [core calls]. unfold run_code. rewrite exec_bind.
  destruct (exec spawn_fetcher code c) as [c' st'].
  exists c', st'. split; [reflexivity |].
  unfold continue_lone. cbn. destruct st' as [s' | [a | e']]; reflexivity.
Qed.

Lemma step_bind {A B} (f : A -> Async B) (e : Event) (c : Core) (s : Susp A) :
  exists c' st',
    step e (lone c (Suspended s)) = lone c' st'
    /\ step e (lone c (Suspended (susp_bind s f))) = continue_lone f c' st'.
Proof.
  destruct e as [fid o | p | cid]; simpl.
  - destruct (first_ready (deliver fid o) 0 (promises c)) as [[p code] |];
      [same_shape |].
    destruct s as [fid' k | k | p k]; simpl; try same_shape.
    destruct (Nat.eqb fid fid'); simpl; [apply run_caller_bind | same_shape].
  - destruct (promises c !! p ≫= resume c); same_shape.
  - destruct cid as [| cid]; simpl; [| same_shape].
    destruct s as [fid' k | k | p k]; simpl; try same_shape.
    + apply run_caller_bind.
    + destruct (promises c !! p) as [[s0 | v] |]; simpl; try same_shape.
      apply run_caller_bind.
Qed.

Lemma Runs_bind_susp {A B} (b : Backend) (f : A -> Async B) n c (st : Status A) c1 v :
  Runs b n c st c1 v ->
  forall s, st = Suspended s ->
  match v with
  | Value a =>
      forall k c2 w,
        (let (c', st') := run_code (f a) c1 in Runs b k c' st' c2 w) ->
        Runs b (n + k) c (Suspended (susp_bind s f)) c2 w
  | Thrown e => Runs b n c (Suspended (susp_bind s f)) c1 (Thrown e)
  end.
Proof.
  induction 1 as [n c v | n c s0 e c1 st1 c' v He Hs Hruns IH]; intros s Heq;
    [discriminate |].
  injection Heq as ->.
  destruct (step_bind f e c s) as (c1' & st1' & Hs1 & Hs2).
  rewrite Hs in Hs1. injection Hs1 as <- <-.
  rewrite <- (next_event_bind b f) in He.
  destruct st1 as [s1 | v1].
  - specialize (IH s1 eq_refl). destruct v as [a | e'].
    + intros k c2 w Hk. simpl. eapply Runs_next; [exact He | exact Hs2 |].
      apply IH, Hk.
    + eapply Runs_next; [exact He | exact Hs2 | exact IH].
  - inversion Hruns; subst. destruct v as [a | e'].
    + intros k c2 w Hk. simpl. unfold run_code in Hk.
      unfold continue_lone, continue_with in Hs2.
      destruct (exec spawn_fetcher (f a) c') as [c3 st3] eqn:E.
      eapply Runs_next; [exact He | exact Hs2 |].
      eapply Runs_mono; [| exact Hk]. lia.
    + eapply Runs_next; [exact He | exact Hs2 |]. constructor.
Qed.

Lemma Starts_bind {A B} (b : Backend) (f : A -> Async B) (code : Async A) n k c c1 a c2 w :
  Starts b n code c c1 (Value a) ->
  Starts b k (f a) c1 c2 w ->
  Starts b (n + k) (bind code f) c c2 w.
Proof.
  unfold Starts, run_code. rewrite exec_bind.
  destruct (exec spawn_fetcher code c) as [c' [s | v]]; simpl; intros H1 H2.
  - apply (Runs_bind_susp b f _ _ _ _ _ H1 s eq_refl). exact H2.
  - inversion H1; subst.
    destruct (exec spawn_fetcher (f a) c1) as [c3 st3].
    eapply Runs_mono; [| exact H2]. lia.
Qed.

Lemma Starts_bind_throw {A B} (b : Backend) (f : A -> Async B) (code : Async A) n c c1 e :
  Starts b n code c c1 (Thrown e) ->
  Starts b n (bind code f) c c1 (Thrown e).
Proof.
  unfold Starts, run_code. rewrite exec_bind.
  destruct (exec spawn_fetcher code c) as [c' [s | v]]; simpl; intros H1.
  - apply (Runs_bind_susp b f _ _ _ _ _ H1 s eq_refl).
  - inversion H1; subst. constructor.
Qed.

Lemma Starts_solo {R} (b : Backend) (code : Async R) n s c v s' l :
  Starts b n code {| this := s; promises := []; sent := [] |} c v ->
  (n <= 64)%nat ->
  next_event b (lone c (Finished v)) = None ->
  this c = s' -> sent c = l ->
  solo code b s = (Some v, s', l).
Proof.
  unfold Starts, solo, invoke, idle. cbn [core calls].
  destruct (run_code code _) as [c1 st1]. intros H Hn Hq <- <-.
  cbn [app].
  change {| core := c1; calls := [st1] |} with (lone c1 st1).
  rewrite (Runs_drive b _ _ _ _ _ (Runs_mono b _ _ _ _ _ _ Hn H) Hq). reflexivity.
Qed.

Lemma Runs_mono_starts {R} (b : Backend) n n' (code : Async R) c c' v :
  (n <= n')%nat -> Starts b n code c c' v -> Starts b n' code c c' v.
Proof.
  unfold Starts. destruct (run_code code c). apply Runs_mono.
Qed.

Lemma Runs_next_starts {R} (b : Backend) n c (s : Susp R) e (code : Async R) c2 c' v :
  next_event b (lone c (Suspended s)) = Some e ->
  step e (lone c (Suspended s)) = (let (c1, st1) := run_code code c2 in lone c1 st1) ->
  Starts b n code c2 c' v ->
  Runs b (S n) c (Suspended s) c' v.
Proof.
  unfold Starts. destruct (run_code code c2) as [c1 st1]. intros He Hs H.
  econstructor; eauto.
Qed.

Lemma Starts_call {A : Type} (b : Backend) (code : Async A) n c c1 a :
  Starts b n code c c1 (Value a) ->
  first_ready (resume c1) 0 (promises c1) = None ->
  Starts b (n + 1) (call code) c c1 (Value a).
Proof.
  intros H Hq. unfold call. eapply Starts_bind; [exact H |].
  unfold Starts. cbn.
  eapply (Runs_next b _ _ _ (ResumeCaller 0)); [| reflexivity | constructor].
  unfold next_event, lone. cbn [core calls]. rewrite Hq. reflexivity.
Qed.

(** ** Lone calls: running the methods *)

Ltac ev :=
  cbn -[ok Z.eqb map_insert gmap_lookup map_union gmap_empty JS.prop fetched_tokens
        AuthService.auth_headers AuthService.with_auth insert pretty String.append].

Ltac facts :=
  repeat match goal with
    | H : ok _ = _ |- _ => rewrite H
    | H : JS.prop _ _ = _ |- _ => rewrite H
    | H : Z.eqb _ _ = _ |- _ => rewrite H
    | H : ?b ?n ?r = _ |- context [?b ?n ?r'] =>
        progress (change (b n r') with (b n r); rewrite H)
    end.

Ltac sim :=
  ev; repeat (first [progress facts | progress unfold AuthService.retry_on_401]; ev).
Ltac run_step := eapply Runs_next; [sim; reflexivity | sim; reflexivity |].
Ltac run_done := sim; apply Runs_done.
Ltac run_all := sim; repeat run_step; run_done.

(** [getTokens] on a service with no refresh under way: one request, whose
    answer decides the result; the result is also what is left in the
    store.  Stated for the two situations in which the methods below call
    it: nothing has happened yet, or one refresh and two requests have. *)
Ltac solve_getTokens E0 :=
  unfold Starts, fetched_tokens;
  match type of E0 with
  | _ = Value ?resp =>
      let Hok := fresh "Hok" in
      destruct resp as [st stt [v |]]; cbn [body];
      destruct (ok _) eqn:Hok;
      [ let Ha := fresh "Ha" in let Hi := fresh "Hi" in
        destruct (JS.prop v "access_token") eqn:Ha;
        [ destruct (JS.prop v "id_token") eqn:Hi |]
      | | | ];
      run_all
  | _ => run_all
  end.

Lemma getTokens_starts (b : Backend) ts :
  let r := fetched_tokens (b 0%nat AuthService.tokens_request) in
  Starts b 3 AuthService.getTokens
    {| this := {| tokenStore := ts; refreshPromise := None |}; promises := []; sent := [] |}
    {| this := {| tokenStore := r; refreshPromise := None |};
       promises := [Finished (Value r)]; sent := [AuthService.tokens_request] |}
    (Value r).
Proof.
  intros r. subst r.
  destruct (b 0%nat AuthService.tokens_request) as [resp | e] eqn:E0; solve_getTokens E0.
Qed.

Lemma getTokens_starts_again (b : Backend) ts v0 q0 q1 :
  let r := fetched_tokens (b 2%nat AuthService.tokens_request) in
  Starts b 3 AuthService.getTokens
    {| this := {| tokenStore := ts; refreshPromise := None |};
       promises := [Finished v0]; sent := [q0; q1] |}
    {| this := {| tokenStore := r; refreshPromise := None |};
       promises := [Finished v0; Finished (Value r)];
       sent := [q0; q1; AuthService.tokens_request] |}
    (Value r).
Proof.
  intros r. subst r.
  destruct (b 2%nat AuthService.tokens_request) as [resp | e] eqn:E0; solve_getTokens E0.
Qed.

Lemma getAuthHeaders_starts (b : Backend) ts :
  let r := fetched_tokens (b 0%nat AuthService.tokens_request) in
  Starts b 4 AuthService.getAuthHeaders
    {| this := {| tokenStore := ts; refreshPromise := None |}; promises := []; sent := [] |}
    {| this := {| tokenStore := r; refreshPromise := None |};
       promises := [Finished (Value r)]; sent := [AuthService.tokens_request] |}
    (Value (AuthService.auth_headers r)).
Proof.
  intros r. unfold AuthService.getAuthHeaders.
  change 4%nat with (3 + 1 + 0)%nat.
  eapply Starts_bind.
  - apply Starts_call; [apply getTokens_starts | reflexivity].
  - unfold Starts. cbn. constructor.
Qed.

Lemma getAuthHeaders_starts_again (b : Backend) ts v0 q0 q1 :
  let r := fetched_tokens (b 2%nat AuthService.tokens_request) in
  Starts b 4 AuthService.getAuthHeaders
    {| this := {| tokenStore := ts; refreshPromise := None |};
       promises := [Finished v0]; sent := [q0; q1] |}
    {| this := {| tokenStore := r; refreshPromise := None |};
       promises := [Finished v0; Finished (Value r)];
       sent := [q0; q1; AuthService.tokens_request] |}
    (Value (AuthService.auth_headers r)).
Proof.
  intros r. unfold AuthService.getAuthHeaders.
  change 4%nat with (3 + 1 + 0)%nat.
  eapply Starts_bind.
  - apply Starts_call; [apply getTokens_starts_again | reflexivity].
  - unfold Starts. cbn. constructor.
Qed.

Lemma getTokens_alone (b : Backend) (s : AuthService) :
  refreshPromise s = None ->
  let r := fetched_tokens (b 0%nat AuthService.tokens_request) in
  solo AuthService.getTokens b s
  = (Some (Value r), {| tokenStore := r; refreshPromise := None |},
     [AuthService.tokens_request]).
Proof.
  intros H r. destruct s as [ts rp]. cbn in H. subst rp.
  eapply Starts_solo; [apply getTokens_starts | lia | reflexivity ..].
Qed.

(** ** [getTokens]: what is fetched, stored and returned *)

Lemma fetched_tokens_dom (o : Completion Response) (t : gmap string jsval) :
  fetched_tokens o = Some t ->
  dom t = ({["access_token"; "id_token"]} : gset string)
  /\ is_Some (t !! "access_token") /\ is_Some (t !! "id_token").
Proof.
  unfold fetched_tokens. destruct o as [resp | e]; [| discriminate].
  destruct (ok resp); [| discriminate].
  destruct (body resp) as [v |]; [| discriminate].
  destruct (JS.prop v "access_token") as [a | e1]; [| discriminate].
  destruct (JS.prop v "id_token") as [i | e2]; [| discriminate].
  intros [= <-]. split.
  - rewrite !dom_insert_L, dom_empty_L. set_solver.
  - split; eexists; reflexivity.
Qed.

Lemma prop_not_nullish (v : jsval) (name : string) :
  JS.nullish v = false -> exists x, JS.prop v name = Value x.
Proof. destruct v; try discriminate; intros _; eexists; reflexivity. Qed.

(** C3, as stated, fails: a 200 response whose body is not JSON makes
    [getTokens] return [null], not a record. *)
Lemma getTokens_unparsable_body :
  let b : Backend := fun _ _ => Value {| status := 200; statusText := "OK"; body := None |} in
  let s := {| tokenStore := None; refreshPromise := None |} in
  ok {| status := 200; statusText := "OK"; body := None |} = true
  /\ ~ (exists t, fst (fst (solo AuthService.getTokens b s)) = Some (Value (Some t))).
Proof.
  intros b s. split; [reflexivity |].
  rewrite getTokens_alone by reflexivity. intros [t H]. discriminate H.
Qed.

(** The body [null] does the same: reading [access_token] of it throws. *)
Example getTokens_null_body :
  solo AuthService.getTokens
    (fun _ _ => Value {| status := 200; statusText := "OK"; body := Some JNull |})
    {| tokenStore := None; refreshPromise := None |}
  = (Some (Value None), {| tokenStore := None; refreshPromise := None |},
     [AuthService.tokens_request]).
Proof. rewrite getTokens_alone by reflexivity. reflexivity. Qed.

(** C3, amended.  For every 2xx response from [GET /auth/tokens] whose body
    parses to a value other than [null], [getTokens] returns, and stores, a
    record with exactly the two fields [access_token] and [id_token], taken
    from the body.  And whatever the backend answers, what is stored and
    returned is [null] or a record with exactly these two fields: nothing
    else of the body (a refresh token, a token for another resource) gets
    into the store. *)
Theorem getTokens_two_fields
    (b : Backend) (s : AuthService) (response : Response) (data : jsval) :
  refreshPromise s = None ->
  b 0%nat AuthService.tokens_request = Value response ->
  ok response = true ->
  body response = Some data ->
  JS.nullish data = false ->
  (exists access id,
     JS.prop data "access_token" = Value access
     /\ JS.prop data "id_token" = Value id
     /\ let t : gmap string jsval := <["access_token" := access]> (<["id_token" := id]> ∅) in
        solo AuthService.getTokens b s
        = (Some (Value (Some t)), {| tokenStore := Some t; refreshPromise := None |},
           [AuthService.tokens_request])
        /\ dom t = ({["access_token"; "id_token"]} : gset string))
  /\ (forall (b' : Backend) (t : gmap string jsval),
        (fst (fst (solo AuthService.getTokens b' s)) = Some (Value (Some t))
         \/ tokenStore (snd (fst (solo AuthService.getTokens b' s))) = Some t) ->
        dom t = ({["access_token"; "id_token"]} : gset string)).
Proof.
  intros Hs Hb Hok Hbody Hdata. split.
  - destruct (prop_not_nullish data "access_token" Hdata) as [access Ha].
    destruct (prop_not_nullish data "id_token" Hdata) as [id Hi].
    exists access, id. split; [exact Ha |]. split; [exact Hi |].
    cbv zeta. rewrite (getTokens_alone b s Hs). cbv zeta.
    unfold fetched_tokens. rewrite Hb, Hok, Hbody, Ha, Hi. split; [reflexivity |].
    rewrite !dom_insert_L, dom_empty_L. set_solver.
  - intros b' t. rewrite (getTokens_alone b' s Hs). cbn [fst snd tokenStore].
    intros [[= H] | H]; apply fetched_tokens_dom in H; apply H.
Qed.

Lemma getTokens_two_fields_witness :
  let data := JObj [("access_token", JStr "A"); ("refresh_token", JStr "R");
                    ("id_token", JStr "I")] in
  let t : gmap string jsval := <["access_token" := JStr "A"]> (<["id_token" := JStr "I"]> ∅) in
  solo AuthService.getTokens
    (fun _ _ => Value {| status := 200; statusText := "OK"; body := Some data |})
    {| tokenStore := None; refreshPromise := None |}
  = (Some (Value (Some t)), {| tokenStore := Some t; refreshPromise := None |},
     [AuthService.tokens_request])
  /\ t !! "refresh_token" = None.
Proof.
  intros data t. split; [| reflexivity].
  destruct (getTokens_two_fields
              (fun _ _ => Value {| status := 200; statusText := "OK"; body := Some data |})
              {| tokenStore := None; refreshPromise := None |}
              {| status := 200; statusText := "OK"; body := Some data |} data
              eq_refl eq_refl eq_refl eq_refl eq_refl)
    as [(access & id & Ha & Hi & H & _) _].
  injection Ha as <-. injection Hi as <-. exact H.
Defined.

Lemma checkAuthStatus_alone (b : Backend) (s : AuthService) :
  refreshPromise s = None ->
  let r := fetched_tokens (b 0%nat AuthService.tokens_request) in
  solo AuthService.checkAuthStatus b s
  = (Some (Value (match r with Some _ => true | None => false end)),
     {| tokenStore := r; refreshPromise := None |}, [AuthService.tokens_request]).
Proof.
  intros H r. destruct s as [ts rp]. cbn in H. subst rp.
  eapply Starts_solo.
  - unfold AuthService.checkAuthStatus.
    eapply Starts_bind;
      [apply Starts_call; [apply getTokens_starts | reflexivity] |].
    unfold Starts. cbn. apply (Runs_done b 0).
  - lia.
  - reflexivity.
  - reflexivity.
  - reflexivity.
Qed.

(** C4. When [GET /auth/tokens] is answered with a status outside 2xx, or
    not at all, [getTokens] returns [null] and leaves the store [null],
    [checkAuthStatus] returns [false], and with that answer the [Chat]
    component shows the sign-in screen. *)
Theorem failed_tokens_sign_in (b : Backend) (s : AuthService) (st : Chat.State) :
  refreshPromise s = None ->
  (forall response, b 0%nat AuthService.tokens_request = Value response ->
                    ok response = false) ->
  solo AuthService.getTokens b s
  = (Some (Value None), {| tokenStore := None; refreshPromise := None |},
     [AuthService.tokens_request])
  /\ solo AuthService.checkAuthStatus b s
     = (Some (Value false), {| tokenStore := None; refreshPromise := None |},
        [AuthService.tokens_request])
  /\ Chat.render (Chat.checkAuthStatus (Value false) st) = Chat.SignIn.
Proof.
  intros Hs Hb.
  assert (Hr : fetched_tokens (b 0%nat AuthService.tokens_request) = None).
  { unfold fetched_tokens. destruct (b 0%nat AuthService.tokens_request) as [resp | e];
      [rewrite (Hb resp eq_refl) |]; reflexivity. }
  split; [| split].
  - rewrite (getTokens_alone b s Hs). cbv zeta. rewrite Hr. reflexivity.
  - rewrite (checkAuthStatus_alone b s Hs). cbv zeta. rewrite Hr. reflexivity.
  - reflexivity.
Qed.

Lemma failed_tokens_sign_in_witness :
  let b : Backend :=
    fun _ _ => Value {| status := 401; statusText := "Unauthorized"; body := None |} in
  solo AuthService.checkAuthStatus b {| tokenStore := None; refreshPromise := None |}
  = (Some (Value false), {| tokenStore := None; refreshPromise := None |},
     [AuthService.tokens_request])
  /\ Chat.render (Chat.checkAuthStatus (Value false) Chat.initial) = Chat.SignIn.
Proof.
  intros b.
  refine (proj2 (failed_tokens_sign_in b {| tokenStore := None; refreshPromise := None |}
                   Chat.initial eq_refl _)).
  intros response [= <-]. reflexivity.
Defined.

(** The same with the network down. *)
Example failed_tokens_network :
  solo AuthService.checkAuthStatus (fun _ _ => Thrown NetworkFailure)
    {| tokenStore := Some ∅; refreshPromise := None |}
  = (Some (Value false), {| tokenStore := None; refreshPromise := None |},
     [AuthService.tokens_request]).
Proof.
  rewrite checkAuthStatus_alone by reflexivity. reflexivity.
Qed.

(** ** [getAuthHeaders] *)

Lemma getAuthHeaders_alone (b : Backend) (s : AuthService) :
  refreshPromise s = None ->
  let r := fetched_tokens (b 0%nat AuthService.tokens_request) in
  solo AuthService.getAuthHeaders b s
  = (Some (Value (AuthService.auth_headers r)),
     {| tokenStore := r; refreshPromise := None |}, [AuthService.tokens_request]).
Proof.
  intros H r. destruct s as [ts rp]. cbn in H. subst rp.
  eapply Starts_solo; [apply getAuthHeaders_starts | lia | reflexivity ..].
Qed.

(** C10. [getAuthHeaders] returns [null] exactly when [getTokens] returned
    [null]; otherwise it returns a record with exactly the two names
    ['azure-access-token'] and ['azure-id-token'], bound to the
    [access_token] and the [id_token] of the tokens fetched. *)
Theorem getAuthHeaders_of_tokens (b : Backend) (s : AuthService) :
  refreshPromise s = None ->
  exists tokens hdrs,
    fst (fst (solo AuthService.getTokens b s)) = Some (Value tokens)
    /\ fst (fst (solo AuthService.getAuthHeaders b s)) = Some (Value hdrs)
    /\ (hdrs = None <-> tokens = None)
    /\ (forall t, tokens = Some t ->
          exists h, hdrs = Some h
            /\ dom h = ({["azure-access-token"; "azure-id-token"]} : gset string)
            /\ h !! "azure-access-token" = t !! "access_token"
            /\ h !! "azure-id-token" = t !! "id_token").
Proof.
  intros Hs. rewrite (getTokens_alone b s Hs), (getAuthHeaders_alone b s Hs). cbv zeta.
  set (r := fetched_tokens (b 0%nat AuthService.tokens_request)).
  exists r, (AuthService.auth_headers r). split; [reflexivity |]. split; [reflexivity |].
  split.
  - destruct r; simpl; split; congruence.
  - intros t Ht. destruct (fetched_tokens_dom _ _ Ht) as (_ & [a Ha] & [i Hi]).
    rewrite Ht. unfold AuthService.auth_headers. eexists. split; [reflexivity |].
    rewrite Ha, Hi. simpl. split; [| split].
    + rewrite !dom_insert_L, dom_empty_L. set_solver.
    + rewrite lookup_insert_eq. reflexivity.
    + rewrite lookup_insert_ne by discriminate. rewrite lookup_insert_eq. reflexivity.
Qed.

Lemma getAuthHeaders_of_tokens_witness :
  let data := JObj [("access_token", JStr "A"); ("id_token", JStr "I")] in
  let b : Backend := fun _ _ => Value {| status := 200; statusText := "OK"; body := Some data |} in
  let s := {| tokenStore := None; refreshPromise := None |} in
  exists tokens hdrs,
    fst (fst (solo AuthService.getTokens b s)) = Some (Value tokens)
    /\ fst (fst (solo AuthService.getAuthHeaders b s)) = Some (Value hdrs)
    /\ (hdrs = None <-> tokens = None)
    /\ (forall t, tokens = Some t ->
          exists h, hdrs = Some h
            /\ dom h = ({["azure-access-token"; "azure-id-token"]} : gset string)
            /\ h !! "azure-access-token" = t !! "access_token"
            /\ h !! "azure-id-token" = t !! "id_token").
Proof.
  intros data b s. exact (getAuthHeaders_of_tokens b s eq_refl).
Defined.

Example getAuthHeaders_example :
  fst (fst (solo AuthService.getAuthHeaders
              (fun _ _ => Value {| status := 200; statusText := "OK";
                                   body := Some (JObj [("access_token", JStr "A");
                                                       ("id_token", JStr "I")]) |})
              {| tokenStore := None; refreshPromise := None |}))
  = Some (Value (Some (<["azure-access-token" := JStr "A"]>
                        (<["azure-id-token" := JStr "I"]> ∅)))).
Proof. rewrite getAuthHeaders_alone by reflexivity. reflexivity. Qed.

(** ** [logout] *)

Lemma logout_alone (b : Backend) (s : AuthService) :
  solo AuthService.logout b s
  = (Some (Value tt),
     match b 0%nat AuthService.logout_request with
     | Value _ => {| tokenStore := None; refreshPromise := None |}
     | Thrown _ => s
     end,
     [AuthService.logout_request]).
Proof.
  destruct (b 0%nat AuthService.logout_request) as [resp | e] eqn:E0.
  - eapply (Starts_solo b _ 8); [unfold Starts; run_all | lia | reflexivity ..].
  - eapply (Starts_solo b _ 8); [unfold Starts; run_all | lia | reflexivity ..].
Qed.

(** C6, as stated, fails: when the request itself fails (the network is
    down), [logout] returns without clearing the token store. *)
Lemma logout_network_failure_keeps_store :
  let t : gmap string jsval := <["access_token" := JStr "A"]> (<["id_token" := JStr "I"]> ∅) in
  let s := {| tokenStore := Some t; refreshPromise := None |} in
  ~ (tokenStore (snd (fst (solo AuthService.logout (fun _ _ => Thrown NetworkFailure) s)))
     = None).
Proof. intros t s. rewrite logout_alone. discriminate. Qed.

(** C6, amended.  Whenever [GET /auth/logout] is answered, with whatever
    status, the token store and the pending refresh promise are [null] after
    [logout]; and [logout] never throws, answered or not. *)
Theorem logout_clears (b : Backend) (s : AuthService) :
  (forall response, b 0%nat AuthService.logout_request = Value response ->
     solo AuthService.logout b s
     = (Some (Value tt), {| tokenStore := None; refreshPromise := None |},
        [AuthService.logout_request]))
  /\ fst (fst (solo AuthService.logout b s)) = Some (Value tt).
Proof.
  rewrite logout_alone. split; [| reflexivity].
  intros response ->. reflexivity.
Qed.

Example logout_after_500 :
  solo AuthService.logout
    (fun _ _ => Value {| status := 500; statusText := "Internal Server Error"; body := None |})
    {| tokenStore := Some ∅; refreshPromise := Some 7%nat |}
  = (Some (Value tt), {| tokenStore := None; refreshPromise := None |},
     [AuthService.logout_request]).
Proof. rewrite logout_alone. reflexivity. Qed.

(** ** [getAuthUrl] *)

Lemma getAuthUrl_alone (b : Backend) (s : AuthService) :
  solo AuthService.getAuthUrl b s
  = (Some match b 0%nat AuthService.login_request with
          | Value response =>
              if ok response then
                match body response with
                | Some data => JS.prop data "auth_url"
                | None => Thrown NotJson
                end
              else Thrown (Error ("Failed to get auth URL: " +:+ pretty (status response)))
          | Thrown e => Thrown e
          end,
     s, [AuthService.login_request]).
Proof.
  destruct (b 0%nat AuthService.login_request) as [[st stt bd] | e] eqn:E0.
  - destruct (ok _) eqn:Hok; cbn [body status].
    + destruct bd as [data |].
      * destruct (JS.prop data "auth_url") eqn:Hp;
          (eapply (Starts_solo b _ 8); [unfold Starts; run_all | lia | reflexivity ..]).
      * eapply (Starts_solo b _ 8); [unfold Starts; run_all | lia | reflexivity ..].
    + eapply (Starts_solo b _ 8); [unfold Starts; run_all | lia | reflexivity ..].
  - eapply (Starts_solo b _ 8); [unfold Starts; run_all | lia | reflexivity ..].
Qed.

(** C7, as stated, fails: a 200 response whose JSON body is [null] makes
    [getAuthUrl] throw, not return. *)
Lemma getAuthUrl_null_body :
  let response := {| status := 200; statusText := "OK"; body := Some JNull |} in
  let s := {| tokenStore := None; refreshPromise := None |} in
  ok response = true
  /\ ~ (exists v, fst (fst (solo AuthService.getAuthUrl (fun _ _ => Value response) s))
                 = Some (Value v)).
Proof.
  intros response s. split; [reflexivity |].
  rewrite getAuthUrl_alone. intros [v H]. discriminate H.
Qed.

(** So does a 200 response whose body is not JSON at all. *)
Example getAuthUrl_unparsable_body :
  solo AuthService.getAuthUrl
    (fun _ _ => Value {| status := 200; statusText := "OK"; body := None |})
    {| tokenStore := None; refreshPromise := None |}
  = (Some (Thrown NotJson), {| tokenStore := None; refreshPromise := None |},
     [AuthService.login_request]).
Proof. rewrite getAuthUrl_alone. reflexivity. Qed.

(** C7, amended.  [getAuthUrl] returns the [auth_url] property of the body
    whenever [GET /auth/login] is answered with a 2xx status and a body
    that parses to a value other than [null]; it throws whenever the status
    is not 2xx or the request fails.  The service is left as it was. *)
Theorem getAuthUrl_result (b : Backend) (s : AuthService) :
  (forall response data,
     b 0%nat AuthService.login_request = Value response ->
     ok response = true -> body response = Some data -> JS.nullish data = false ->
     exists auth_url,
       JS.prop data "auth_url" = Value auth_url
       /\ solo AuthService.getAuthUrl b s
          = (Some (Value auth_url), s, [AuthService.login_request]))
  /\ (forall response,
        b 0%nat AuthService.login_request = Value response -> ok response = false ->
        solo AuthService.getAuthUrl b s
        = (Some (Thrown (Error ("Failed to get auth URL: " +:+ pretty (status response)))),
           s, [AuthService.login_request]))
  /\ (forall e,
        b 0%nat AuthService.login_request = Thrown e ->
        solo AuthService.getAuthUrl b s = (Some (Thrown e), s, [AuthService.login_request])).
Proof.
  rewrite getAuthUrl_alone. split; [| split].
  - intros response data -> -> -> Hdata.
    destruct (prop_not_nullish data "auth_url" Hdata) as [x Hx].
    exists x. rewrite Hx. split; reflexivity.
  - intros response -> ->. reflexivity.
  - intros e ->. reflexivity.
Qed.

Example getAuthUrl_example :
  solo AuthService.getAuthUrl
    (fun _ _ => Value {| status := 200; statusText := "OK";
                         body := Some (JObj [("auth_url", JStr "https://login.example/authorize")]) |})
    {| tokenStore := None; refreshPromise := None |}
  = (Some (Value (JStr "https://login.example/authorize")),
     {| tokenStore := None; refreshPromise := None |}, [AuthService.login_request]).
Proof. rewrite getAuthUrl_alone. reflexivity. Qed.

(** ** [authenticatedFetch] *)

Lemma authenticatedFetch_passes (b : Backend) (ts : option (gmap string jsval)) (u : string) (options : RequestInit) (o : Completion Response) :
  let r0 := fetched_tokens (b 0%nat AuthService.tokens_request) in
  let first := {| url := u; init := AuthService.with_auth options (AuthService.auth_headers r0) |} in
  b 1%nat first = o ->
  (forall response, o = Value response -> status response <> 401) ->
  solo (AuthService.authenticatedFetch u options) b {| tokenStore := ts; refreshPromise := None |}
  = (Some o, {| tokenStore := r0; refreshPromise := None |}, [AuthService.tokens_request; first]).
Proof.
  intros r0 first E1 Hne. subst first.
  assert (H401 : forall st stt bd, o = Value {| status := st; statusText := stt; body := bd |} ->
                                   (st =? 401) = false).
  { intros st stt bd ->. apply Z.eqb_neq, (Hne _ eq_refl). }
  assert (Hrun : forall c2 v,
            Starts b 3 (bind (fetch u (AuthService.with_auth options (AuthService.auth_headers r0)))
                          (AuthService.retry_on_401 u options))
              {| this := {| tokenStore := r0; refreshPromise := None |};
                 promises := [Finished (Value r0)];
                 sent := [AuthService.tokens_request] |} c2 v ->
            Starts b 8 (AuthService.authenticatedFetch u options)
              {| this := {| tokenStore := ts; refreshPromise := None |}; promises := []; sent := [] |}
              c2 v).
  { intros c2 v HK. unfold AuthService.authenticatedFetch.
    change 8%nat with (4 + 1 + 3)%nat.
    eapply Starts_bind; [apply Starts_call; [apply getAuthHeaders_starts | reflexivity] |].
    exact HK. }
  destruct o as [[st stt bd] | e].
  - specialize (H401 _ _ _ eq_refl).
    eapply (Starts_solo b _ 8); [apply Hrun; unfold Starts; run_all | lia | reflexivity ..].
  - eapply (Starts_solo b _ 8); [apply Hrun; unfold Starts; run_all | lia | reflexivity ..].
Qed.

Lemma authenticatedFetch_retries (b : Backend) (ts : option (gmap string jsval)) (u : string) (options : RequestInit) (response : Response) :
  let r0 := fetched_tokens (b 0%nat AuthService.tokens_request) in
  let first := {| url := u; init := AuthService.with_auth options (AuthService.auth_headers r0) |} in
  let r2 := fetched_tokens (b 2%nat AuthService.tokens_request) in
  b 1%nat first = Value response ->
  status response = 401 ->
  solo (AuthService.authenticatedFetch u options) b {| tokenStore := ts; refreshPromise := None |}
  = match AuthService.auth_headers r2 with
    | Some h =>
        let retry := {| url := u; init := AuthService.with_auth options (Some h) |} in
        (Some (b 3%nat retry), {| tokenStore := r2; refreshPromise := None |},
         [AuthService.tokens_request; first; AuthService.tokens_request; retry])
    | None =>
        (Some (Value response), {| tokenStore := r2; refreshPromise := None |},
         [AuthService.tokens_request; first; AuthService.tokens_request])
    end.
Proof.
  intros r0 first r2 E1 H401. subst first.
  destruct response as [st stt bd]. cbn in H401. subst st.
  set (K := fun newAuthHeaders : option (gmap string jsval) =>
              match newAuthHeaders with
              | Some h => fetch u (AuthService.with_auth options (Some h))
              | None => Ret {| status := 401; statusText := stt; body := bd |}
              end).
  assert (Hrun : forall c2 v,
            Starts b 3 (K (AuthService.auth_headers r2))
              {| this := {| tokenStore := r2; refreshPromise := None |};
                 promises := [Finished (Value r0); Finished (Value r2)];
                 sent := [AuthService.tokens_request;
                          {| url := u; init := AuthService.with_auth options (AuthService.auth_headers r0) |};
                          AuthService.tokens_request] |} c2 v ->
            Starts b 16 (AuthService.authenticatedFetch u options)
              {| this := {| tokenStore := ts; refreshPromise := None |}; promises := []; sent := [] |}
              c2 v).
  { intros c2 v HK. unfold AuthService.authenticatedFetch.
    change 16%nat with (4 + 1 + 11)%nat.
    eapply Starts_bind; [apply Starts_call; [apply getAuthHeaders_starts | reflexivity] |].
    fold r0. unfold Starts. sim.
    eapply (Runs_next_starts b _ _ _ _
              (bind (call AuthService.getAuthHeaders) K)
              {| this := {| tokenStore := None; refreshPromise := None |};
                 promises := [Finished (Value r0)];
                 sent := [AuthService.tokens_request;
                          {| url := u; init := AuthService.with_auth options (AuthService.auth_headers r0) |}] |});
      [sim; reflexivity | sim; reflexivity |].
    apply (Runs_mono_starts b (4 + 1 + 3)); [lia |].
    eapply Starts_bind;
      [apply Starts_call; [apply getAuthHeaders_starts_again | reflexivity] | exact HK]. }
  destruct (AuthService.auth_headers r2) as [h |] eqn:Hh.
  - cbv zeta. 
    destruct (b 3%nat {| url := u; init := AuthService.with_auth options (Some h) |}) as [resp | e] eqn:E3.
    + eapply (Starts_solo b _ 16); [apply Hrun; unfold Starts; run_all | lia | reflexivity ..].
    + eapply (Starts_solo b _ 16); [apply Hrun; unfold Starts; run_all | lia | reflexivity ..].
  - eapply (Starts_solo b _ 16); [apply Hrun; unfold Starts; run_all | lia | reflexivity ..].
Qed.

Lemma retry_on_401_starts_refresh (c : Core) (u : string) (options : RequestInit)
    (response : Response) :
  status response = 401 ->
  let (c', st) := run_code (AuthService.retry_on_401 u options response) c in
  this c' = {| tokenStore := None; refreshPromise := Some (length (promises c)) |}
  /\ sent c' = (sent c ++ [AuthService.tokens_request])%list
  /\ length (promises c') = S (length (promises c))
  /\ (exists k, st = Suspended (OnPromise (length (promises c)) k))
  /\ (exists body,
        promises c' = (promises c ++ [Suspended (OnFetch (length (sent c)) body)])%list)
  /\ (forall p, (p < length (promises c))%nat ->
        promises c' !! p = promises c !! p
        /\ refreshPromise (this c') <> Some p).
Proof.
  intros H. unfold AuthService.retry_on_401. rewrite H. cbn.
  split; [reflexivity |]. split; [reflexivity |]. split; [| split; [| split]].
  - rewrite length_app. cbn. lia.
  - eexists. reflexivity.
  - eexists. reflexivity.
  - intros p Hp. split.
    + apply lookup_app_l, Hp.
    + intros [= E]. lia.
Qed.

(** The options that [authenticatedFetch] hands to [fetch], written out. *)
Lemma with_auth_written_out (options : RequestInit) (tokens : option (gmap string jsval)) :
  AuthService.with_auth options (AuthService.auth_headers tokens)
  = {| method := method options;
       credentials := Some "include";
       headers :=
         match tokens with
         | Some t =>
             <["azure-access-token" := default JUndefined (t !! "access_token")]>
               (<["azure-id-token" := default JUndefined (t !! "id_token")]> (headers options))
         | None => headers options
         end;
       req_body := req_body options |}.
Proof.
  unfold AuthService.with_auth. f_equal. destruct tokens as [t |]; cbn.
  - rewrite <- !insert_union_l, (left_id ∅ _). reflexivity.
  - apply (left_id ∅ _).
Qed.

Lemma retry_on_401_returns_other (c : Core) (u : string) (options : RequestInit)
    (response : Response) :
  status response <> 401 ->
  run_code (AuthService.retry_on_401 u options response) c = (c, Finished (Value response)).
Proof.
  intros H. unfold AuthService.retry_on_401.
  apply Z.eqb_neq in H. rewrite H. reflexivity.
Qed.

(** C2.  For a request made through [authenticatedFetch] on a service with
    no refresh under way.  [carrying tokens] is the request that goes to
    the caller's URL: the caller's method and body, [credentials:
    'include'], and the caller's headers with ['azure-access-token'] and
    ['azure-id-token'] set from [tokens] (the caller's headers alone when
    there are no tokens).
    - An answer with a status other than 401, or a failure of the request,
      is returned as it is: two requests were sent (the tokens, then the
      request carrying them) and the service is as the token fetch left
      it.
    - After a 401, fresh tokens are fetched.  When they are obtained the
      request is sent once more, carrying the fresh tokens, and the answer
      to that retry is the result, whatever it is; when they are not
      obtained, the 401 response itself is the result and nothing more is
      sent.
    - At the moment the 401 is seen, in whatever state the service is, the
      token store is reset, and so is the refresh promise: a new fetch is
      started at once and registered, and the call waits for it.  A
      refresh that was pending is left as it is, but it is no longer the
      registered one, so the retry does not get its tokens.  With any
      other status nothing is touched. *)
Theorem authenticatedFetch_retries_once
    (b : Backend) (s : AuthService) (u : string) (options : RequestInit) :
  refreshPromise s = None ->
  let carrying (tokens : option (gmap string jsval)) : Request :=
    {| url := u;
       init :=
         {| method := method options;
            credentials := Some "include";
            headers :=
              match tokens with
              | Some t =>
                  <["azure-access-token" := default JUndefined (t !! "access_token")]>
                    (<["azure-id-token" := default JUndefined (t !! "id_token")]>
                       (headers options))
              | None => headers options
              end;
            req_body := req_body options |} |} in
  let r0 := fetched_tokens (b 0%nat AuthService.tokens_request) in
  let first := carrying r0 in
  let r2 := fetched_tokens (b 2%nat AuthService.tokens_request) in
  (forall o,
     b 1%nat first = o ->
     (forall response, o = Value response -> status response <> 401) ->
     solo (AuthService.authenticatedFetch u options) b s
     = (Some o, {| tokenStore := r0; refreshPromise := None |},
        [AuthService.tokens_request; first]))
  /\ (forall response,
        b 1%nat first = Value response ->
        status response = 401 ->
        solo (AuthService.authenticatedFetch u options) b s
        = match r2 with
          | Some _ =>
              let retry := carrying r2 in
              (Some (b 3%nat retry), {| tokenStore := r2; refreshPromise := None |},
               [AuthService.tokens_request; first; AuthService.tokens_request; retry])
          | None =>
              (Some (Value response), {| tokenStore := r2; refreshPromise := None |},
               [AuthService.tokens_request; first; AuthService.tokens_request])
          end)
  /\ (forall (c : Core) response,
        status response = 401 ->
        let (c', st) := run_code (AuthService.retry_on_401 u options response) c in
        this c' = {| tokenStore := None; refreshPromise := Some (length (promises c)) |}
        /\ sent c' = (sent c ++ [AuthService.tokens_request])%list
        /\ length (promises c') = S (length (promises c))
        /\ (exists k, st = Suspended (OnPromise (length (promises c)) k))
        /\ (exists body,
              promises c' = (promises c ++ [Suspended (OnFetch (length (sent c)) body)])%list)
        /\ (forall p, (p < length (promises c))%nat ->
              promises c' !! p = promises c !! p
              /\ refreshPromise (this c') <> Some p))
  /\ (forall (c : Core) response,
        status response <> 401 ->
        run_code (AuthService.retry_on_401 u options response) c
        = (c, Finished (Value response))).
Proof.
  intros Hs carrying r0 first r2. destruct s as [ts rp]. cbn in Hs. subst rp.
  assert (Hcarry : forall tokens,
            carrying tokens
            = {| url := u;
                 init := AuthService.with_auth options (AuthService.auth_headers tokens) |}).
  { intros tokens. unfold carrying. rewrite with_auth_written_out. reflexivity. }
  split; [| split; [| split]].
  - intros o. unfold first. rewrite Hcarry. apply authenticatedFetch_passes.
  - intros response. unfold first. rewrite !Hcarry. intros E1 H401.
    rewrite (authenticatedFetch_retries b ts u options response E1 H401). cbv zeta.
    fold r0 r2. destruct r2 as [t2 |]; reflexivity.
  - intros c response. apply retry_on_401_starts_refresh.
  - intros c response. apply retry_on_401_returns_other.
Qed.

(** ** [getTokens]: one fetch at a time *)

Local Close Scope Z_scope.

Lemma bind_quiet_or_throw {A B} (c : Async A) (f : A -> Async B) :
  QuietOrThrow c -> (forall a, QuietOrThrow (f a)) -> QuietOrThrow (bind c f).
Proof.
  intros H Hf. induction H; simpl; try constructor; auto.
Qed.

Lemma try_catch_quiet {A} (c : Async A) (h : Err -> Async A) :
  QuietOrThrow c -> (forall e, Quiet (h e)) -> Quiet (try_catch c h).
Proof.
  intros H Hh. induction H; simpl; try constructor; auto.
Qed.

Lemma lift_quiet_or_throw {A} (c : Completion A) : QuietOrThrow (lift c).
Proof. destruct c; constructor. Qed.

(** The body of [fetchAndStoreTokens] after its request. *)
Lemma fetcher_continuation_quiet :
  exists k, AuthService.fetchAndStoreTokens
            = AwaitFetch AuthService.tokens_request k
            /\ forall o, Quiet (k o).
Proof.
  eexists. split; [reflexivity |].
  intros o. cbn beta. apply try_catch_quiet.
  - apply bind_quiet_or_throw; [apply lift_quiet_or_throw |].
    intros response. destruct (ok response).
    + constructor. apply bind_quiet_or_throw; [apply lift_quiet_or_throw |].
      intros tokens. apply bind_quiet_or_throw; [apply lift_quiet_or_throw |].
      intros access. apply bind_quiet_or_throw; [apply lift_quiet_or_throw |].
      intros id. repeat constructor.
    + repeat constructor.
  - intros e. repeat constructor.
Qed.

Lemma exec_quiet (spawn : Core -> Core) (code : Async Tokens) (c : Core) :
  Quiet code ->
  exists ts st,
    exec spawn code c
    = ({| this := {| tokenStore := ts; refreshPromise := refreshPromise (this c) |};
          promises := promises c; sent := sent c |}, st)
    /\ ((exists v, st = Finished (Value v)) \/ (exists k, st = Suspended (OnTick k) /\ Quiet k)).
Proof.
  intros H. revert c. induction H as [r | k Hk IH | v k Hk IH | k Hk]; intros c; simpl.
  - exists (tokenStore (this c)), (Finished (Value r)). split; [| left; eauto].
    destruct c as [[ts rp] ps l]; reflexivity.
  - apply IH.
  - destruct (IH {| this := {| tokenStore := v; refreshPromise := refreshPromise (this c) |};
                    promises := promises c; sent := sent c |}) as (ts & st & E & Hst).
    exists ts, st. split; [exact E | exact Hst].
  - exists (tokenStore (this c)), (Suspended (OnTick k)). split; [| right; eauto].
    destruct c as [[ts rp] ps l]; reflexivity.
Qed.

Lemma first_ready_Some {X} (pick : Status X -> option (Async X)) i t j code :
  first_ready pick i t = Some (j, code) ->
  exists st, t !! (j - i) = Some st /\ pick st = Some code /\ i <= j.
Proof.
  revert i. induction t as [| st t IH]; intros i; simpl; [discriminate |].
  destruct (pick st) as [code' |] eqn:E.
  - intros [= <- <-]. exists st. rewrite Nat.sub_diag. auto.
  - intros H. destruct (IH _ H) as (st' & Hl & Hp & Hle).
    exists st'. replace (j - i) with (S (j - S i)) by lia. simpl. split; [exact Hl |].
    split; [exact Hp | lia].
Qed.

Lemma first_ready_None {X} (pick : Status X -> option (Async X)) i t :
  (forall n st, t !! n = Some st -> pick st = None) -> first_ready pick i t = None.
Proof.
  revert i. induction t as [| st t IH]; intros i H; simpl; [reflexivity |].
  rewrite (H 0 st eq_refl). apply IH. intros n st' Hn. apply (H (S n)). exact Hn.
Qed.

Lemma joined_not_owner k : Joined k -> Owner k -> False.
Proof. intros HJ HO. specialize (HJ (Value None)). rewrite HO in HJ. discriminate. Qed.

Lemma invoke_joined (m : Machine Tokens) p :
  refreshPromise (this (core m)) = Some p ->
  invoke AuthService.getTokens m
  = {| core := core m; calls := calls m ++ [Suspended (OnPromise p lift)] |}.
Proof.
  intros H. unfold invoke, run_code, AuthService.getTokens. simpl. rewrite H. reflexivity.
Qed.

Lemma spawn_fetcher_eq :
  exists kf, (forall o, Quiet (kf o)) /\
    forall c, spawn_fetcher c
              = {| this := this c;
                   promises := promises c ++ [Suspended (OnFetch (length (sent c)) kf)];
                   sent := sent c ++ [AuthService.tokens_request] |}.
Proof.
  destruct fetcher_continuation_quiet as (kf & Ekf & Hkf).
  exists kf. split; [exact Hkf |]. intros c. unfold spawn_fetcher. rewrite Ekf. reflexivity.
Qed.

Lemma invoke_fresh (m : Machine Tokens) :
  refreshPromise (this (core m)) = None ->
  exists kf ko,
    (forall o, Quiet (kf o)) /\ Owner ko /\
    invoke AuthService.getTokens m
    = {| core := {| this := {| tokenStore := tokenStore (this (core m));
                               refreshPromise := Some (length (promises (core m))) |};
                    promises := promises (core m)
                                ++ [Suspended (OnFetch (length (sent (core m))) kf)];
                    sent := sent (core m) ++ [AuthService.tokens_request] |};
         calls := calls m ++ [Suspended (OnPromise (length (promises (core m))) ko)] |}.
Proof.
  intros H. destruct spawn_fetcher_eq as (kf & Hkf & Espawn).
  exists kf. eexists. split; [exact Hkf |].
  unfold invoke, run_code, AuthService.getTokens. cbn -[spawn_fetcher]. rewrite H.
  cbn -[spawn_fetcher]. rewrite Espawn. cbn. split; [| reflexivity].
  intros o. reflexivity.
Qed.

Lemma Inv_idle s : refreshPromise s = None -> Inv (idle s).
Proof.
  intros H. split; simpl; try (intros; discriminate); try reflexivity.
  intros p Hp. congruence.
Qed.

Lemma Inv_call m : Inv m -> Inv (invoke AuthService.getTokens m).
Proof.
  intros [HP HC HO HR HS].
  destruct (refreshPromise (this (core m))) as [p |] eqn:Hrp.
  - rewrite (invoke_joined m p Hrp). split; simpl; rewrite ?Hrp.
    + exact HP.
    + intros cid st Hl. apply lookup_app_Some in Hl as [Hl | [_ Hl]].
      * exact (HC cid st Hl).
      * apply list_lookup_singleton_Some in Hl as [_ <-].
        right. exists p, lift. split; [reflexivity |]. split; [apply HR; reflexivity |].
        left. intros o. reflexivity.
    + intros cid1 cid2 p1 p2 k1 k2 H1 Ho1 H2 Ho2.
      apply lookup_app_Some in H1 as [H1 | [_ H1]];
        apply lookup_app_Some in H2 as [H2 | [_ H2]].
      * eapply HO; eauto.
      * apply list_lookup_singleton_Some in H2 as [_ [= <- <-]].
        exfalso. eapply joined_not_owner; [| exact Ho2]. intros o; reflexivity.
      * apply list_lookup_singleton_Some in H1 as [_ [= <- <-]].
        exfalso. eapply joined_not_owner; [| exact Ho1]. intros o; reflexivity.
      * apply list_lookup_singleton_Some in H1 as [_ [= <- <-]].
        exfalso. eapply joined_not_owner; [| exact Ho1]. intros o; reflexivity.
    + exact HR.
    + exact HS.
  - destruct (invoke_fresh m Hrp) as (kf & ko & Hkf & Hko & ->).
    assert (Hfin : forall p st, promises (core m) !! p = Some st ->
                                exists v, st = Finished (Value v)).
    { intros p st Hl. destruct (HP p st Hl) as [Hv | (s & _ & _ & Hs)]; [exact Hv |].
      congruence. }
    split; simpl.
    + intros p st Hl. apply lookup_app_Some in Hl as [Hl | [Hge Hl]].
      * left. eapply Hfin, Hl.
      * apply list_lookup_singleton_Some in Hl as [Hz <-].
        right. eexists. split; [reflexivity |]. split; [exact Hkf |].
        f_equal. lia.
    + intros cid st Hl. apply lookup_app_Some in Hl as [Hl | [_ Hl]].
      * destruct (HC cid st Hl) as [Hv | (p & k & -> & Hp & Hk)]; [left; exact Hv |].
        right. exists p, k. split; [reflexivity |]. split; [rewrite length_app; lia |].
        destruct Hk as [Hk | [_ Hk]]; [left; exact Hk | congruence].
      * apply list_lookup_singleton_Some in Hl as [_ <-].
        right. eexists _, _. split; [reflexivity |].
        split; [rewrite length_app; simpl; lia |]. right. split; [exact Hko | reflexivity].
    + intros cid1 cid2 p1 p2 k1 k2 H1 Ho1 H2 Ho2.
      assert (Hnew : forall cid p k,
                 (calls m ++ [Suspended (OnPromise (length (promises (core m))) ko)])%list !! cid
                 = Some (Suspended (OnPromise p k)) -> Owner k -> cid = length (calls m)).
      { intros cid p k Hl Hk. apply lookup_app_Some in Hl as [Hl | [Hge Hl]].
        - destruct (HC cid _ Hl) as [[v Hv] | (p' & k' & [= <- <-] & _ & Hk')];
            [discriminate |].
          destruct Hk' as [Hj | [_ Hk']]; [| congruence].
          exfalso. eapply joined_not_owner; eauto.
        - apply list_lookup_singleton_Some in Hl as [Hz _]. lia. }
      rewrite (Hnew _ _ _ H1 Ho1), (Hnew _ _ _ H2 Ho2). reflexivity.
    + intros p [= <-]. rewrite length_app. simpl. lia.
    + rewrite !length_app. simpl. lia.
Qed.

Lemma Inv_fetcher (m : Machine Tokens) p s code :
  Inv m -> promises (core m) !! p = Some (Suspended s) -> Quiet code ->
  Inv (with_core (run_fetcher p code (core m)) m).
Proof.
  intros [HP HC HO HR HS] Hp Hq.
  assert (Hrp : refreshPromise (this (core m)) = Some p).
  { destruct (HP p _ Hp) as [[v Hv] | (s' & _ & _ & H)]; [discriminate | exact H]. }
  destruct (exec_quiet spawn_fetcher code (core m) Hq) as (ts & st & E & Hst).
  unfold run_fetcher, run_code, with_core. rewrite E. split; simpl.
  - intros p' st' Hl. destruct (decide (p' = p)) as [-> | Hne].
    + rewrite list_lookup_insert_eq in Hl by (eapply lookup_lt_Some, Hp).
      injection Hl as <-. destruct Hst as [[v ->] | (k & -> & Hk)].
      * left. eauto.
      * right. eexists. split; [reflexivity |]. split; [exact Hk | exact Hrp].
    + rewrite list_lookup_insert_ne in Hl by congruence. exact (HP p' st' Hl).
  - intros cid st' Hl. rewrite length_insert. exact (HC cid st' Hl).
  - exact HO.
  - intros p'. rewrite length_insert. apply HR.
  - rewrite length_insert. exact HS.
Qed.

Lemma Inv_caller_waits (m : Machine Tokens) cid st code :
  Inv m -> calls m !! cid = Some st -> resume (core m) st = Some code ->
  exists p k x,
    st = Suspended (OnPromise p k)
    /\ promises (core m) !! p = Some (Finished (Value x))
    /\ code = k (Value x)
    /\ (Joined k \/ (Owner k /\ refreshPromise (this (core m)) = Some p)).
Proof.
  intros [HP HC HO HR HS] Hl Hr.
  destruct (HC cid st Hl) as [[v ->] | (p & k & -> & Hlt & Hk)]; [discriminate |].
  simpl in Hr. destruct (promises (core m) !! p) as [[s | v] |] eqn:Hp; try discriminate.
  injection Hr as <-.
  destruct (HP p _ Hp) as [[x [= ->]] | (s & [=] & _)].
  exists p, k, x. auto.
Qed.

Lemma Inv_resume_caller (m : Machine Tokens) cid st code :
  Inv m -> calls m !! cid = Some st -> resume (core m) st = Some code ->
  Inv (run_caller cid code m).
Proof.
  intros Hinv Hl Hr.
  destruct (Inv_caller_waits m cid st code Hinv Hl Hr) as (p & k & x & -> & Hp & -> & Hk).
  destruct Hinv as [HP HC HO HR HS].
  assert (Hcid : cid < length (calls m)) by (eapply lookup_lt_Some, Hl).
  destruct Hk as [Hj | [Ho Hrp]].
  - unfold run_caller, run_code. rewrite Hj. simpl. split; simpl.
    + exact HP.
    + intros cid' st' Hl'. destruct (decide (cid' = cid)) as [-> | Hne].
      * rewrite list_lookup_insert_eq in Hl' by exact Hcid. injection Hl' as <-.
        left. eauto.
      * rewrite list_lookup_insert_ne in Hl' by congruence. exact (HC cid' st' Hl').
    + intros cid1 cid2 p1 p2 k1 k2 H1 Ho1 H2 Ho2.
      destruct (decide (cid1 = cid)) as [-> | Hne1];
        [rewrite list_lookup_insert_eq in H1 by exact Hcid; discriminate |].
      destruct (decide (cid2 = cid)) as [-> | Hne2];
        [rewrite list_lookup_insert_eq in H2 by exact Hcid; discriminate |].
      rewrite list_lookup_insert_ne in H1, H2 by congruence. eapply HO; eauto.
    + exact HR.
    + exact HS.
  - unfold run_caller, run_code. rewrite Ho. simpl. split; simpl.
    + intros p' st' Hl'. destruct (HP p' st' Hl') as [Hv | (s & -> & _ & Hrp')];
        [left; exact Hv |].
      rewrite Hrp in Hrp'. injection Hrp' as <-. rewrite Hp in Hl'. discriminate.
    + intros cid' st' Hl'. destruct (decide (cid' = cid)) as [-> | Hne].
      * rewrite list_lookup_insert_eq in Hl' by exact Hcid. injection Hl' as <-.
        left. eauto.
      * rewrite list_lookup_insert_ne in Hl' by congruence.
        destruct (HC cid' st' Hl') as [Hv | (p' & k' & -> & Hlt & Hk')]; [left; exact Hv |].
        right. exists p', k'. split; [reflexivity |]. split; [exact Hlt |].
        destruct Hk' as [Hj' | [Ho' _]]; [left; exact Hj' |].
        exfalso. apply Hne. eapply HO; eauto.
    + intros cid1 cid2 p1 p2 k1 k2 H1 Ho1 H2 Ho2.
      destruct (decide (cid1 = cid)) as [-> | Hne1];
        [rewrite list_lookup_insert_eq in H1 by exact Hcid; discriminate |].
      destruct (decide (cid2 = cid)) as [-> | Hne2];
        [rewrite list_lookup_insert_eq in H2 by exact Hcid; discriminate |].
      rewrite list_lookup_insert_ne in H1, H2 by congruence. eapply HO; eauto.
    + intros p' [=].
    + exact HS.
Qed.

Lemma Inv_step (e : Event) (m : Machine Tokens) : Inv m -> Inv (step e m).
Proof.
  intros Hinv. destruct e as [fid o | p | cid]; simpl.
  - destruct (first_ready (deliver fid o) 0 (promises (core m))) as [[p code] |] eqn:E.
    + apply first_ready_Some in E as (st & Hl & Hd & _). rewrite Nat.sub_0_r in Hl.
      destruct (inv_promises m Hinv p st Hl) as [[v ->] | (s & -> & Hs & _)];
        [discriminate |].
      destruct s as [fid' k | k | p' k]; simpl in Hd; try discriminate.
      destruct (Nat.eqb fid fid'); [| discriminate]. injection Hd as <-.
      eapply Inv_fetcher; [exact Hinv | exact Hl | apply Hs].
    + rewrite first_ready_None; [exact Hinv |].
      intros n st Hl. destruct (inv_calls m Hinv n st Hl) as [[v ->] | (p & k & -> & _)];
        reflexivity.
  - destruct (promises (core m) !! p) as [st |] eqn:Hl; simpl; [| exact Hinv].
    destruct (resume (core m) st) as [code |] eqn:Hr; [| exact Hinv].
    destruct (inv_promises m Hinv p st Hl) as [[v ->] | (s & -> & Hs & _)];
      [discriminate |].
    destruct s as [fid' k | k | p' k]; simpl in Hr; try discriminate; [| destruct Hs].
    injection Hr as <-. eapply Inv_fetcher; [exact Hinv | exact Hl | exact Hs].
  - destruct (calls m !! cid) as [st |] eqn:Hl; simpl; [| exact Hinv].
    destruct (resume (core m) st) as [code |] eqn:Hr; [| exact Hinv].
    eapply Inv_resume_caller; eauto.
Qed.

Lemma Inv_act (a : Action) (m : Machine Tokens) : Inv m -> Inv (act a m).
Proof. destruct a; [apply Inv_call | apply Inv_step]. Qed.

Lemma Inv_run (acts : list Action) (m : Machine Tokens) : Inv m -> Inv (run acts m).
Proof.
  revert m. induction acts as [| a acts IH]; intros m H; [exact H |].
  apply IH, Inv_act, H.
Qed.

Lemma Follows_call m cid p :
  Inv m -> Follows m cid p -> Follows (invoke AuthService.getTokens m) cid p.
Proof.
  intros Hinv HF.
  assert (Hcalls : exists c' st, invoke AuthService.getTokens m
                     = {| core := c'; calls := calls m ++ [st] |}
                     /\ forall q v, promises (core m) !! q = Some v ->
                                    promises c' !! q = Some v).
  { destruct (refreshPromise (this (core m))) as [q |] eqn:Hrp.
    - rewrite (invoke_joined m q Hrp). eexists _, _. split; [reflexivity | auto].
    - destruct (invoke_fresh m Hrp) as (kf & ko & _ & _ & ->).
      eexists _, _. split; [reflexivity |]. simpl. intros q v Hq.
      apply lookup_app_l_Some, Hq. }
  destruct Hcalls as (c' & st & -> & Hps).
  destruct HF as [[k Hk] | (x & Hx & Hp)]; [left | right].
  - exists k. simpl. apply lookup_app_l_Some, Hk.
  - exists x. simpl. split; [apply lookup_app_l_Some, Hx | apply Hps, Hp].
Qed.

Lemma Follows_fetcher m cid p q s code :
  promises (core m) !! q = Some (Suspended s) -> Quiet code ->
  Follows m cid p -> Follows (with_core (run_fetcher q code (core m)) m) cid p.
Proof.
  intros Hq Hcode HF.
  destruct (exec_quiet spawn_fetcher code (core m) Hcode) as (ts & st & E & _).
  unfold run_fetcher, run_code, with_core. rewrite E.
  destruct HF as [[k Hk] | (x & Hx & Hp)]; [left; eauto | right].
  exists x. simpl. split; [exact Hx |].
  rewrite list_lookup_insert_ne; [exact Hp |]. intros ->. congruence.
Qed.

Lemma Follows_resume_caller m cid p cid' st code :
  Inv m -> calls m !! cid' = Some st -> resume (core m) st = Some code ->
  Follows m cid p -> Follows (run_caller cid' code m) cid p.
Proof.
  intros Hinv Hl Hr HF.
  destruct (Inv_caller_waits m cid' st code Hinv Hl Hr) as (q & k & x & -> & Hq & -> & Hk).
  assert (Hcid : cid' < length (calls m)) by (eapply lookup_lt_Some, Hl).
  assert (Hrun : exists c', run_caller cid' (k (Value x)) m
                   = {| core := c'; calls := <[cid' := Finished (Value x)]> (calls m) |}
                   /\ promises c' = promises (core m)).
  { unfold run_caller, run_code. destruct Hk as [Hj | [Ho _]].
    - rewrite Hj. simpl. eexists. split; reflexivity.
    - rewrite Ho. simpl. eexists. split; reflexivity. }
  destruct Hrun as (c' & -> & Hps). unfold Follows. simpl. rewrite Hps.
  destruct (decide (cid = cid')) as [-> | Hne].
  - right. exists x. rewrite list_lookup_insert_eq by exact Hcid. split; [reflexivity |].
    destruct HF as [[k0 Hk0] | (y & Hy & _)]; rewrite Hl in *; [| discriminate].
    injection Hk0 as -> _. exact Hq.
  - rewrite list_lookup_insert_ne by congruence. exact HF.
Qed.

Lemma Follows_step (e : Event) m cid p :
  Inv m -> Follows m cid p -> Follows (step e m) cid p.
Proof.
  intros Hinv HF. destruct e as [fid o | q | cid']; simpl.
  - destruct (first_ready (deliver fid o) 0 (promises (core m))) as [[q code] |] eqn:E.
    + apply first_ready_Some in E as (st & Hl & Hd & _). rewrite Nat.sub_0_r in Hl.
      destruct (inv_promises m Hinv q st Hl) as [[v ->] | (s & -> & Hs & _)];
        [discriminate |].
      destruct s as [fid' k | k | p' k]; simpl in Hd; try discriminate.
      destruct (Nat.eqb fid fid'); [| discriminate]. injection Hd as <-.
      eapply Follows_fetcher; [exact Hl | apply Hs | exact HF].
    + rewrite first_ready_None; [exact HF |].
      intros n st Hl. destruct (inv_calls m Hinv n st Hl) as [[v ->] | (p' & k & -> & _)];
        reflexivity.
  - destruct (promises (core m) !! q) as [st |] eqn:Hl; simpl; [| exact HF].
    destruct (resume (core m) st) as [code |] eqn:Hr; [| exact HF].
    destruct (inv_promises m Hinv q st Hl) as [[v ->] | (s & -> & Hs & _)];
      [discriminate |].
    destruct s as [fid' k | k | p' k]; simpl in Hr; try discriminate; [| destruct Hs].
    injection Hr as <-. eapply Follows_fetcher; [exact Hl | exact Hs | exact HF].
  - destruct (calls m !! cid') as [st |] eqn:Hl; simpl; [| exact HF].
    destruct (resume (core m) st) as [code |] eqn:Hr; [| exact HF].
    eapply Follows_resume_caller; eauto.
Qed.

Lemma Follows_run (acts : list Action) m cid p :
  Inv m -> Follows m cid p -> Follows (run acts m) cid p.
Proof.
  revert m. induction acts as [| a acts IH]; intros m Hinv HF; [exact HF |].
  simpl. apply IH; [apply Inv_act, Hinv |].
  destruct a; [apply Follows_call | apply Follows_step]; assumption.
Qed.

(** C1, amended.  Take any number of [getTokens()] calls on one service
    that had no refresh under way and on which no other method is called
    meanwhile, interleaved in any way with the answers of the backend and
    the continuations of suspended code.  In every state that is
    reached:
    - at most one [fetchAndStoreTokens] body is in flight, and while one is,
      its promise is the registered [refreshPromise];
    - one request has been sent per promise made, so the backend was
      contacted once per fetch and never for a caller that joined;
    - any two callers that wait for the same promise complete, whenever
      they do, with the same value: the one that promise was settled
      with.
    And in every state of the service, however it was reached:
    - a call made while a promise is registered starts nothing: it sends no
      request, changes no field, and waits for that promise; a call made
      when none is registered sends exactly one request and registers a
      new promise, for which it waits. *)
Theorem getTokens_single_flight (s0 : AuthService) (acts : list Action) :
  refreshPromise s0 = None ->
  let m := run acts (idle s0) in
  (forall p q sp sq,
     promises (core m) !! p = Some (Suspended sp) ->
     promises (core m) !! q = Some (Suspended sq) -> p = q)
  /\ (forall p sp,
        promises (core m) !! p = Some (Suspended sp) ->
        refreshPromise (this (core m)) = Some p)
  /\ (forall (m0 : Machine Tokens) p,
        refreshPromise (this (core m0)) = Some p ->
        invoke AuthService.getTokens m0
        = {| core := core m0; calls := calls m0 ++ [Suspended (OnPromise p lift)] |})
  /\ (forall m0 : Machine Tokens,
        refreshPromise (this (core m0)) = None ->
        let m' := invoke AuthService.getTokens m0 in
        sent (core m') = (sent (core m0) ++ [AuthService.tokens_request])%list
        /\ tokenStore (this (core m')) = tokenStore (this (core m0))
        /\ refreshPromise (this (core m')) = Some (length (promises (core m0)))
        /\ (exists body,
              promises (core m')
              = (promises (core m0) ++ [Suspended (OnFetch (length (sent (core m0))) body)])%list)
        /\ exists k, calls m'
                     = (calls m0 ++ [Suspended (OnPromise (length (promises (core m0))) k)])%list)
  /\ length (sent (core m)) = length (promises (core m))
  /\ (forall cid1 cid2 p k1 k2 later v1 v2,
        calls m !! cid1 = Some (Suspended (OnPromise p k1)) ->
        calls m !! cid2 = Some (Suspended (OnPromise p k2)) ->
        calls (run later m) !! cid1 = Some (Finished v1) ->
        calls (run later m) !! cid2 = Some (Finished v2) ->
        v1 = v2 /\ promises (core (run later m)) !! p = Some (Finished v1)).
Proof.
  intros Hs m. assert (Hinv : Inv m) by (apply Inv_run, Inv_idle, Hs).
  assert (Hreg : forall p sp, promises (core m) !! p = Some (Suspended sp) ->
                              refreshPromise (this (core m)) = Some p).
  { intros p sp Hp. destruct (inv_promises m Hinv p _ Hp) as [[v Hv] | (s & _ & _ & H)];
      [discriminate | exact H]. }
  split; [| split; [exact Hreg | split; [| split; [| split]]]].
  - intros p q sp sq Hp Hq. apply Hreg in Hp, Hq. congruence.
  - apply invoke_joined.
  - intros m0 Hrp. destruct (invoke_fresh m0 Hrp) as (kf & ko & _ & _ & E).
    cbv zeta. rewrite E. simpl. split; [reflexivity |]. split; [reflexivity |].
    split; [reflexivity |]. split; eexists; reflexivity.
  - apply (inv_sent m Hinv).
  - intros cid1 cid2 p k1 k2 later v1 v2 H1 H2 F1 F2.
    assert (HF1 : Follows (run later m) cid1 p) by (apply Follows_run; [exact Hinv | left; eauto]).
    assert (HF2 : Follows (run later m) cid2 p) by (apply Follows_run; [exact Hinv | left; eauto]).
    destruct HF1 as [[k Hk] | (x1 & Hx1 & Hp1)]; [congruence |].
    destruct HF2 as [[k Hk] | (x2 & Hx2 & Hp2)]; [congruence |].
    rewrite F1 in Hx1. rewrite F2 in Hx2. injection Hx1 as ->. injection Hx2 as ->.
    split; [congruence | exact Hp1].
Qed.

Local Open Scope Z_scope.

(** C1, as stated, fails: [logout()] (lines 140-141) resets [refreshPromise]
    on the same instance, also while a token fetch is in flight.  A
    [getTokens()] call made after that, with the first fetch still in
    flight, finds no promise registered and starts a second fetch: the
    endpoint is contacted twice, two fetches are in flight at once, and
    the two callers end with different tokens. *)
Lemma getTokens_second_fetch_after_logout :
  let s0 := {| tokenStore := None; refreshPromise := None |} in
  let tokens x :=
    Value {| status := 200; statusText := "OK";
             body := Some (JObj [("access_token", JStr x); ("id_token", JStr x)]) |} in
  let stored x : gmap string jsval :=
    <["access_token" := JStr x]> (<["id_token" := JStr x]> ∅) in
  let m :=
    mixed_run [Invoke GetTokens; Invoke Logout;
               Occurs (Deliver 1 (Value {| status := 200; statusText := "OK"; body := None |}))]
      (idle s0) in
  let m' := mixed_act (Invoke GetTokens) m in
  let m'' :=
    mixed_run [Occurs (Deliver 0 (tokens "A")); Occurs (ResumeFetcher 0);
               Occurs (ResumeCaller 0);
               Occurs (Deliver 2 (tokens "B")); Occurs (ResumeFetcher 1);
               Occurs (ResumeCaller 2)] m' in
  (exists k, promises (core m) = [Suspended (OnFetch 0 k)])
  /\ sent (core m) = [AuthService.tokens_request; AuthService.logout_request]
  /\ sent (core m')
     = [AuthService.tokens_request; AuthService.logout_request; AuthService.tokens_request]
  /\ ~ (forall p q sp sq,
          promises (core m') !! p = Some (Suspended sp) ->
          promises (core m') !! q = Some (Suspended sq) -> p = q)
  /\ calls m''
     = [Finished (Value (RTokens (Some (stored "A")))); Finished (Value RVoid);
        Finished (Value (RTokens (Some (stored "B"))))].
Proof.
  intros s0 tokens stored m m' m''.
  split; [eexists; reflexivity |]. split; [reflexivity |]. split; [reflexivity |].
  split; [| reflexivity].
  intros H.
  assert (H0 : exists sp, promises (core m') !! 0%nat = Some (Suspended sp))
    by (eexists; reflexivity).
  assert (H1 : exists sq, promises (core m') !! 1%nat = Some (Suspended sq))
    by (eexists; reflexivity).
  destruct H0 as [sp H0]. destruct H1 as [sq H1].
  discriminate (H _ _ _ _ H0 H1).
Qed.

(** The caller that registered the first promise resets [refreshPromise]
    when it continues (line 56), whatever is registered then: here it
    clears the registration of the second fetch, so that a third call
    starts a third fetch while the second is in flight. *)
Example getTokens_owner_clears_later_registration :
  let s0 := {| tokenStore := None; refreshPromise := None |} in
  let tokens x :=
    Value {| status := 200; statusText := "OK";
             body := Some (JObj [("access_token", JStr x); ("id_token", JStr x)]) |} in
  let m :=
    mixed_run [Invoke GetTokens; Invoke Logout;
               Occurs (Deliver 1 (Value {| status := 200; statusText := "OK"; body := None |}));
               Invoke GetTokens;
               Occurs (Deliver 0 (tokens "A")); Occurs (ResumeFetcher 0)]
      (idle s0) in
  let m' := mixed_act (Occurs (ResumeCaller 0)) m in
  let m'' := mixed_act (Invoke GetTokens) m' in
  refreshPromise (this (core m)) = Some 1%nat
  /\ refreshPromise (this (core m')) = None
  /\ (exists k, promises (core m') !! 1%nat = Some (Suspended (OnFetch 2 k)))
  /\ sent (core m'')
     = [AuthService.tokens_request; AuthService.logout_request; AuthService.tokens_request;
        AuthService.tokens_request].
Proof.
  intros s0 tokens m m' m''.
  split; [reflexivity |]. split; [reflexivity |]. split; [eexists; reflexivity | reflexivity].
Qed.

(** The 401 path of [authenticatedFetch] (lines 90-93) does the same as
    [logout]: it resets [refreshPromise] and calls [getTokens()] at once,
    which starts a fetch next to the one that another caller's
    [getTokens()] has in flight. *)
Example getTokens_second_fetch_after_401 :
  let s0 := {| tokenStore := None; refreshPromise := None |} in
  let tokens x :=
    Value {| status := 200; statusText := "OK";
             body := Some (JObj [("access_token", JStr x); ("id_token", JStr x)]) |} in
  let denied := Value {| status := 401; statusText := "Unauthorized"; body := None |} in
  let options :=
    {| method := Some "POST"; credentials := None; headers := ∅; req_body := Some "{}" |} in
  let m :=
    mixed_run [Invoke (AuthenticatedFetch "/api/threads" options);
               Occurs (Deliver 0 (tokens "old")); Occurs (ResumeFetcher 0);
               Occurs (ResumeCaller 0); Occurs (ResumeCaller 0); Occurs (ResumeCaller 0);
               Invoke GetTokens]
      (idle s0) in
  let m' := mixed_act (Occurs (Deliver 1 denied)) m in
  (exists k, promises (core m) !! 1%nat = Some (Suspended (OnFetch 2 k)))
  /\ refreshPromise (this (core m)) = Some 1%nat
  /\ map url (sent (core m)) = ["/api/auth/tokens"; "/api/threads"; "/api/auth/tokens"]
  /\ (exists k1 k2, promises (core m') !! 1%nat = Some (Suspended (OnFetch 2 k1))
                    /\ promises (core m') !! 2%nat = Some (Suspended (OnFetch 3 k2)))
  /\ refreshPromise (this (core m')) = Some 2%nat
  /\ map url (sent (core m'))
     = ["/api/auth/tokens"; "/api/threads"; "/api/auth/tokens"; "/api/auth/tokens"].
Proof.
  intros s0 tokens denied options m m'.
  split; [eexists; reflexivity |]. split; [reflexivity |]. split; [reflexivity |].
  split; [eexists _, _; split; reflexivity |]. split; reflexivity.
Qed.

Lemma getTokens_single_flight_witness :
  let s0 := {| tokenStore := None; refreshPromise := None |} in
  let answer :=
    Value {| status := 200; statusText := "OK";
             body := Some (JObj [("access_token", JStr "A"); ("id_token", JStr "I")]) |} in
  let acts :=
    [CallGetTokens; CallGetTokens; CallGetTokens;
     Happens (Deliver 0 answer); Happens (ResumeFetcher 0);
     Happens (ResumeCaller 1); Happens (ResumeCaller 0); Happens (ResumeCaller 2)] in
  let m := run acts (idle s0) in
  let t : gmap string jsval := <["access_token" := JStr "A"]> (<["id_token" := JStr "I"]> ∅) in
  sent (core m) = [AuthService.tokens_request]
  /\ calls m = [Finished (Value (Some t)); Finished (Value (Some t)); Finished (Value (Some t))]
  /\ length (sent (core m)) = length (promises (core m)).
Proof.
  intros s0 answer acts m t.
  split; [reflexivity |]. split; [reflexivity |].
  exact (proj1 (proj2 (proj2 (proj2 (proj2 (getTokens_single_flight s0 acts eq_refl)))))).
Defined.

(** A fourth call, made after the first three were served, fetches again. *)
Example getTokens_next_flight :
  let s0 := {| tokenStore := None; refreshPromise := None |} in
  let answer := Value {| status := 401; statusText := "Unauthorized"; body := None |} in
  let m := run [CallGetTokens; CallGetTokens; Happens (Deliver 0 answer);
                Happens (ResumeCaller 0); Happens (ResumeCaller 1); CallGetTokens]
               (idle s0) in
  sent (core m) = [AuthService.tokens_request; AuthService.tokens_request]
  /\ (exists k, calls m = [Finished (Value None); Finished (Value None);
                          Suspended (OnPromise 1 k)])
  /\ refreshPromise (this (core m)) = Some 1%nat.
Proof.
  intros s0 answer m. split; [reflexivity |]. split; [| reflexivity].
  eexists. reflexivity.
Qed.

Lemma authenticatedFetch_retries_once_witness :
  let s := {| tokenStore := None; refreshPromise := None |} in
  let tokens x :=
    Value {| status := 200; statusText := "OK";
             body := Some (JObj [("access_token", JStr x); ("id_token", JStr x)]) |} in
  let denied := {| status := 401; statusText := "Unauthorized"; body := None |} in
  let created :=
    Value {| status := 200; statusText := "OK"; body := Some (JObj [("thread_id", JStr "t1")]) |} in
  let b : Backend :=
    fun n _ => match n with
               | 0%nat => tokens "old"
               | 1%nat => Value denied
               | 2%nat => tokens "new"
               | _ => created
               end in
  let options :=
    {| method := Some "POST"; credentials := None;
       headers := <["Content-Type" := JStr "application/json"]> ∅; req_body := Some "{}" |} in
  let with_tokens x : RequestInit :=
    {| method := Some "POST"; credentials := Some "include";
       headers := <["azure-access-token" := JStr x]>
                    (<["azure-id-token" := JStr x]>
                       (<["Content-Type" := JStr "application/json"]> ∅));
       req_body := Some "{}" |} in
  solo (AuthService.authenticatedFetch "/api/threads" options) b s
  = (Some created,
     {| tokenStore := Some (<["access_token" := JStr "new"]> (<["id_token" := JStr "new"]> ∅));
        refreshPromise := None |},
     [AuthService.tokens_request;
      {| url := "/api/threads"; init := with_tokens "old" |};
      AuthService.tokens_request;
      {| url := "/api/threads"; init := with_tokens "new" |}]).
Proof.
  intros s tokens denied created b options with_tokens.
  exact (proj1 (proj2 (authenticatedFetch_retries_once b s "/api/threads" options eq_refl))
           denied eq_refl eq_refl).
Defined.

Lemma deliverMessage_reply_witness :
  let data :=
    JObj [("messages",
           JArr [JObj [("type", JStr "human"); ("content", JStr "hello")];
                 JObj [("type", JStr "ai"); ("content", JStr "")];
                 JObj [("type", JStr "tool"); ("content", JStr "42")];
                 JObj [("type", JStr "ai"); ("content", JStr "Hi, how can I help?")]])] in
  let response := {| status := 200; statusText := "OK"; body := Some data |} in
  Chat.messages (Chat.deliverMessage (Value response) (1000, 1001) Chat.initial)
  = [ {| Chat.id := "1001"; Chat.content := JStr "Hi, how can I help?";
         Chat.sender := Chat.Agent; Chat.timestamp := 1001 |} ].
Proof.
  intros data response.
  refine (deliverMessage_reply response data (1000, 1001) Chat.initial
            eq_refl eq_refl eq_refl _).
  intros items [= <-]. repeat constructor.
Defined.

(** The literal stands in when the last 'ai' message has no content, and
    when there is no 'ai' message. *)
Example deliverMessage_no_response :
  let reply_to data :=
    Chat.reply {| status := 200; statusText := "OK"; body := Some data |} in
  reply_to (JObj [("messages", JArr [JObj [("type", JStr "ai"); ("content", JStr "x")];
                                     JObj [("type", JStr "ai")]])])
  = Value (JStr "No response received")
  /\ reply_to (JObj [("messages", JArr [JObj [("type", JStr "human")]])])
     = Value (JStr "No response received")
  /\ reply_to (JObj []) = Value (JStr "No response received")
  /\ reply_to (JObj [("messages", JStr "none")]) = Value (JStr "No response received").
Proof. repeat split. Qed.

(** ** Strings: examples *)

Example trim_example :
  Str.trim (" " +:+ Str.utf8 [9; 226; 128; 131]%N +:+ "hi there " +:+ Str.utf8 [10; 194; 160]%N)
  = "hi there".
Proof. reflexivity. Qed.

Example encode_example : Str.encodeURIComponent "a b&c/d" = "a%20b%26c%2Fd".
Proof. reflexivity. Qed.

Example pretty_example : pretty (401 : Z) = "401".
Proof. reflexivity. Qed.

(** * More of the code *)

(** ** [Chat]: from the input to the reply *)

Lemma trim_nonempty (s : string) : Str.trim s <> "" -> s <> "".
Proof. intros H ->. apply H. reflexivity. Qed.

Lemma truthy_string (s : string) : JS.truthy (JStr s) = true <-> s <> "".
Proof. simpl. destruct (String.eqb_spec s ""); simpl; split; congruence. Qed.

Lemma sendMessage_accepted (clock : Chat.Clock) (st : Chat.State) :
  Chat.isLoading st = false -> Str.trim (Chat.inputMessage st) <> "" ->
  Chat.sendMessage clock st
  = {| Chat.isAuthenticated := Chat.isAuthenticated st; Chat.threadId := Chat.threadId st;
       Chat.messages := Chat.messages st ++
         [ {| Chat.id := pretty (fst clock); Chat.content := JStr (Chat.inputMessage st);
              Chat.sender := Chat.User; Chat.timestamp := snd clock |} ];
       Chat.inputMessage := ""; Chat.isLoading := false;
       Chat.pendingMessage := Chat.inputMessage st; Chat.shouldSendMessage := true |}.
Proof.
  intros Hl Ht. unfold Chat.sendMessage. rewrite Hl.
  apply truthy_string in Ht. rewrite Ht. reflexivity.
Qed.

(** X1. A second [sendMessage], called once the state set by the first is
    in place, does nothing, whatever the clock shows: the first call has
    emptied the input (or was itself ignored), so one text is never taken
    twice. *)
Theorem sendMessage_twice (c1 c2 : Chat.Clock) (st : Chat.State) :
  Chat.sendMessage c2 (Chat.sendMessage c1 st) = Chat.sendMessage c1 st.
Proof.
  unfold Chat.sendMessage at 2 3.
  destruct (negb (JS.truthy (JStr (Str.trim (Chat.inputMessage st)))) || Chat.isLoading st) eqn:E.
  - unfold Chat.sendMessage. rewrite E. reflexivity.
  - reflexivity.
Qed.

(** X2. The Send button is disabled exactly in the states in which
    [sendMessage] would change nothing.  In those states the Enter key
    changes nothing either, and Shift+Enter, like any key but Enter, never
    sends. *)
Theorem send_disabled_iff_ignored (clock : Chat.Clock) (st : Chat.State) :
  (ChatUI.send_disabled st = true <-> Chat.sendMessage clock st = st)
  /\ (forall key shiftKey,
        ChatUI.send_disabled st = true -> ChatUI.handleKeyPress key shiftKey clock st = st)
  /\ (forall key, ChatUI.handleKeyPress key true clock st = st)
  /\ (forall key shiftKey,
        key <> "Enter" -> ChatUI.handleKeyPress key shiftKey clock st = st)
  /\ ChatUI.handleKeyPress "Enter" false clock st = Chat.sendMessage clock st.
Proof.
  assert (Hiff : ChatUI.send_disabled st = true <-> Chat.sendMessage clock st = st).
  { unfold ChatUI.send_disabled, Chat.sendMessage. rewrite orb_comm.
    destruct (negb (JS.truthy (JStr (Str.trim (Chat.inputMessage st)))) || Chat.isLoading st).
    - split; reflexivity.
    - split; [discriminate |]. intros H. exfalso.
      apply (f_equal (fun s => length (Chat.messages s))) in H. simpl in H.
      rewrite length_app in H. simpl in H. lia. }
  split; [exact Hiff |]. split; [| split; [| split]].
  - intros key shiftKey Hd. unfold ChatUI.handleKeyPress.
    destruct (_ && _); [apply Hiff, Hd | reflexivity].
  - intros key. unfold ChatUI.handleKeyPress. rewrite andb_false_r. reflexivity.
  - intros key shiftKey Hk. unfold ChatUI.handleKeyPress.
    apply String.eqb_neq in Hk. rewrite Hk. reflexivity.
  - reflexivity.
Qed.

(** X3. One message from the input to the reply.  In a chat that has a
    thread and is not loading, a text that is not blank is taken by
    [sendMessage]; the condition of the effect then holds, and
    [deliverMessage] sends the text as it was typed (not trimmed) to the
    thread's [runs/wait]; while the answer is awaited the Send button is
    disabled and the condition of the effect is false; and however the
    request ends, the chat then holds the old messages, the user's message
    and one message from the agent, is not loading, has no pending message
    and an empty input, and delivers nothing more. *)
Theorem send_cycle (st : Chat.State) (thread : string) (c1 c2 : Chat.Clock)
    (fetched : Completion Response) :
  Chat.threadId st = Some thread -> thread <> "" ->
  Chat.isLoading st = false ->
  Str.trim (Chat.inputMessage st) <> "" ->
  let st1 := Chat.sendMessage c1 st in
  ChatUI.should_deliver st1 = true
  /\ exists st2,
       ChatUI.deliverMessage_start st1
       = Some (st2, ChatUI.run_request thread (Chat.inputMessage st))
       /\ ChatUI.send_disabled st2 = true
       /\ ChatUI.should_deliver st2 = false
       /\ let st3 := Chat.deliverMessage fetched c2 st2 in
          (exists reply,
             Chat.messages st3
             = (Chat.messages st
                ++ [ {| Chat.id := pretty (fst c1); Chat.content := JStr (Chat.inputMessage st);
                        Chat.sender := Chat.User; Chat.timestamp := snd c1 |};
                     {| Chat.id := pretty (fst c2 + 1); Chat.content := reply;
                        Chat.sender := Chat.Agent; Chat.timestamp := snd c2 |} ])%list)
          /\ Chat.isLoading st3 = false
          /\ Chat.pendingMessage st3 = ""
          /\ Chat.inputMessage st3 = ""
          /\ ChatUI.should_deliver st3 = false
          /\ ChatUI.deliverMessage_start st3 = None.
Proof.
  intros Hth Hne Hl Ht st1. subst st1.
  rewrite (sendMessage_accepted c1 st Hl Ht).
  pose proof (trim_nonempty _ Ht) as Hin.
  assert (Hp : negb (String.eqb (Chat.inputMessage st) "") = true)
    by (apply (truthy_string (Chat.inputMessage st)), Hin).
  assert (Hq : negb (String.eqb thread "") = true)
    by (apply (truthy_string thread), Hne).
  destruct st as [au th ms im ld pm fl]. cbn in Hth, Hl, Hp |- *. subst th ld.
  unfold ChatUI.should_deliver, ChatUI.deliverMessage_start, ChatUI.send_disabled.
  cbn. rewrite Hq, Hp. cbn.
  split; [reflexivity |]. eexists. split; [reflexivity |]. cbn.
  rewrite <- app_assoc. cbn.
  repeat split; eauto; rewrite ?Hq, ?Hp; reflexivity.
Qed.

Lemma send_cycle_witness :
  let st := {| Chat.isAuthenticated := true; Chat.threadId := Some "t1";
               Chat.messages := []; Chat.inputMessage := " hello ";
               Chat.isLoading := false; Chat.pendingMessage := "";
               Chat.shouldSendMessage := false |} in
  let st1 := Chat.sendMessage (5, 6) st in
  ChatUI.should_deliver st1 = true
  /\ exists st2,
       ChatUI.deliverMessage_start st1 = Some (st2, ChatUI.run_request "t1" " hello ")
       /\ Chat.isLoading (Chat.deliverMessage (Thrown NetworkFailure) (7, 8) st2) = false.
Proof.
  intros st st1.
  assert (H1 : "t1" <> "") by discriminate.
  assert (H2 : Str.trim (Chat.inputMessage st) <> "") by discriminate.
  destruct (send_cycle st "t1" (5, 6) (7, 8) (Thrown NetworkFailure) eq_refl H1 eq_refl H2)
    as (Hd & st2 & Hs & _ & _ & _ & Hl & _).
  split; [exact Hd |]. exists st2. split; [exact Hs | exact Hl].
Defined.

(** X4. Messages sent before the thread exists.  Without a thread a message
    that was taken is shown but not delivered, and the chat is not loading,
    so a second message can be sent; it replaces the first as the pending
    message.  When the thread id is set both messages are in the list, the
    condition of the effect holds, and [deliverMessage] sends only the
    second. *)
Theorem second_message_replaces_pending (st : Chat.State) (c1 c2 : Chat.Clock)
    (second thread : string) :
  Chat.threadId st = None -> Chat.isLoading st = false ->
  Str.trim (Chat.inputMessage st) <> "" -> Str.trim second <> "" -> thread <> "" ->
  let st1 := Chat.sendMessage c1 st in
  let st2 := Chat.sendMessage c2 (ChatUI.setInputMessage second st1) in
  let st3 := ChatUI.setThreadId thread st2 in
  ChatUI.should_deliver st1 = false
  /\ ChatUI.deliverMessage_start st1 = None
  /\ ChatUI.send_disabled (ChatUI.setInputMessage second st1) = false
  /\ Chat.messages st3
     = (Chat.messages st
        ++ [ {| Chat.id := pretty (fst c1); Chat.content := JStr (Chat.inputMessage st);
                Chat.sender := Chat.User; Chat.timestamp := snd c1 |};
             {| Chat.id := pretty (fst c2); Chat.content := JStr second;
                Chat.sender := Chat.User; Chat.timestamp := snd c2 |} ])%list
  /\ ChatUI.should_deliver st3 = true
  /\ exists st4, ChatUI.deliverMessage_start st3
                 = Some (st4, ChatUI.run_request thread second).
Proof.
  intros Hth Hl Ht Ht2 Hne st1 st2 st3. subst st1 st2 st3.
  rewrite (sendMessage_accepted c1 st Hl Ht).
  rewrite (sendMessage_accepted c2) by (simpl; first [reflexivity | assumption]).
  pose proof (proj2 (truthy_string second) (trim_nonempty _ Ht2)) as Hs.
  pose proof (proj2 (truthy_string thread) Hne) as Hq.
  pose proof (proj2 (truthy_string _) Ht2) as Hs2.
  destruct st as [au th ms im ld pm fl]. cbn -[Str.trim] in Hth, Hl |- *. subst th ld.
  unfold ChatUI.should_deliver, ChatUI.deliverMessage_start, ChatUI.send_disabled.
  cbn -[Str.trim] in Hs, Hq, Hs2 |- *. rewrite ?Hq, ?Hs, ?Hs2. cbn. rewrite <- app_assoc.
  split; [reflexivity |]. split; [reflexivity |]. split; [reflexivity |].
  split; [reflexivity |]. split; [reflexivity |]. eexists. reflexivity.
Qed.

Lemma second_message_replaces_pending_witness :
  let st := {| Chat.isAuthenticated := true; Chat.threadId := None;
               Chat.messages := []; Chat.inputMessage := "first";
               Chat.isLoading := false; Chat.pendingMessage := "";
               Chat.shouldSendMessage := false |} in
  let st2 := Chat.sendMessage (7, 8) (ChatUI.setInputMessage "second" (Chat.sendMessage (5, 6) st)) in
  exists st4, ChatUI.deliverMessage_start (ChatUI.setThreadId "t1" st2)
              = Some (st4, ChatUI.run_request "t1" "second").
Proof.
  intros st st2.
  assert (H1 : Str.trim (Chat.inputMessage st) <> "") by discriminate.
  assert (H2 : Str.trim "second" <> "") by discriminate.
  assert (H3 : "t1" <> "") by discriminate.
  exact (proj2 (proj2 (proj2 (proj2 (proj2
           (second_message_replaces_pending st (5, 6) (7, 8) "second" "t1"
              eq_refl eq_refl H1 H2 H3)))))).
Defined.

(** X5. However the request ends, [deliverMessage] appends exactly one
    message from the agent, and its content is never empty or otherwise
    falsy.  A rejected request shows the error text with the error's
    description, and a response outside 2xx shows it with the status. *)
Theorem deliverMessage_always_replies (fetched : Completion Response) (clock : Chat.Clock)
    (st : Chat.State) :
  exists text,
    Chat.messages (Chat.deliverMessage fetched clock st)
    = (Chat.messages st
       ++ [ {| Chat.id := pretty (fst clock + 1); Chat.content := text;
               Chat.sender := Chat.Agent; Chat.timestamp := snd clock |} ])%list
    /\ JS.truthy text = true
    /\ (forall e, fetched = Thrown e ->
          text = JStr ("Sorry, there was an error processing your message. Error: "
                       +:+ JS.describe e))
    /\ (forall response, fetched = Value response -> ok response = false ->
          text = JStr ("Sorry, there was an error processing your message. Error: "
                       +:+ "Error: Failed to get agent response: "
                       +:+ pretty (status response))).
Proof.
  unfold Chat.deliverMessage. cbn [Chat.messages]. eexists. split; [reflexivity |].
  destruct fetched as [response | e]; cbn [JS.and_then].
  - unfold Chat.reply. destruct (ok response) eqn:Hok; cbn [negb].
    + split; [| split; [discriminate | intros r [= <-] H; congruence]].
      destruct (parse response) as [data | e]; cbn [JS.and_then]; [| reflexivity].
      destruct (Chat.agentContent data) as [c | e]; cbn [JS.and_then]; [| reflexivity].
      destruct (JS.truthy c) eqn:Hc; [exact Hc | reflexivity].
    + split; [reflexivity |]. split; [discriminate |]. intros r [= <-] _.
      unfold JS.describe, JS.message, JS.name. reflexivity.
  - split; [reflexivity |]. split; [| discriminate]. intros e' [= <-]. reflexivity.
Qed.

(** ** [authenticatedFetch]: the requests it sends *)

Lemma auth_headers_lookup (r : option (gmap string jsval)) (h : gmap string jsval) (name : string) :
  AuthService.auth_headers r = Some h ->
  h !! name
  = if String.eqb name "azure-access-token"
    then Some (default JUndefined (r ≫= (.!! "access_token")))
    else if String.eqb name "azure-id-token"
         then Some (default JUndefined (r ≫= (.!! "id_token")))
         else None.
Proof.
  destruct r as [t |]; [| discriminate]. intros [= <-]. cbn [mbind option_bind].
  destruct (String.eqb_spec name "azure-access-token") as [-> | Ha].
  - apply lookup_insert_eq.
  - rewrite lookup_insert_ne by congruence.
    destruct (String.eqb_spec name "azure-id-token") as [-> | Hi].
    + apply lookup_insert_eq.
    + rewrite lookup_insert_ne by congruence. apply lookup_empty.
Qed.

(** X6. What [authenticatedFetch] makes of the caller's options: method and
    body are the caller's, [credentials] is always ['include'], and the
    headers are the caller's with the two token headers laid over them.  A
    caller cannot override a token header, every other header of the caller
    is kept, and without tokens the headers are the caller's as they
    are. *)
Theorem with_auth_headers (options : RequestInit) (tokens : option (gmap string jsval))
    (name : string) :
  let q := AuthService.with_auth options (AuthService.auth_headers tokens) in
  method q = method options
  /\ req_body q = req_body options
  /\ credentials q = Some "include"
  /\ headers q !! name
     = match tokens with
       | Some t =>
           if String.eqb name "azure-access-token"
           then Some (default JUndefined (t !! "access_token"))
           else if String.eqb name "azure-id-token"
                then Some (default JUndefined (t !! "id_token"))
                else headers options !! name
       | None => headers options !! name
       end.
Proof.
  cbv zeta. split; [reflexivity |]. split; [reflexivity |]. split; [reflexivity |].
  unfold AuthService.with_auth. cbn [headers].
  destruct tokens as [t |].
  - pose proof (auth_headers_lookup (Some t) _ name eq_refl) as H. cbn [mbind option_bind] in H.
    unfold AuthService.auth_headers. cbn [default from_option id]. rewrite lookup_union, H.
    destruct (String.eqb name "azure-access-token"); [apply union_Some_l |].
    destruct (String.eqb name "azure-id-token"); [apply union_Some_l |].
    apply (left_id None _).
  - cbn. rewrite (left_id ∅ _). reflexivity.
Qed.


(** Every run of [authenticatedFetch] on an idle service, in one
    statement. *)
Lemma authenticatedFetch_outcome (b : Backend) (ts : option (gmap string jsval)) (u : string)
    (options : RequestInit) :
  exists o s' l n q,
    (forall ts',
       solo (AuthService.authenticatedFetch u options) b
         {| tokenStore := ts'; refreshPromise := None |}
       = (Some o, s', l))
    /\ refreshPromise s' = None
    /\ (2 <= length l <= 4)%nat
    /\ l !! 0%nat = Some AuthService.tokens_request
    /\ Forall (fun q' => q' = AuthService.tokens_request \/ to_url u options q') l
    /\ l !! n = Some q /\ to_url u options q /\ o = b n q.
Proof.
  set (r0 := fetched_tokens (b 0%nat AuthService.tokens_request)).
  set (first := {| url := u; init := AuthService.with_auth options (AuthService.auth_headers r0) |}).
  assert (Hfirst : to_url u options first) by (exists r0; reflexivity).
  destruct (b 1%nat first) as [response | e] eqn:E1.
  - destruct (Z.eq_dec (status response) 401) as [H401 | Hne].
    + pose proof (fun ts' => authenticatedFetch_retries b ts' u options response E1 H401) as H.
      cbv zeta in H. fold r0 first in H.
      set (r2 := fetched_tokens (b 2%nat AuthService.tokens_request)) in *.
      destruct (AuthService.auth_headers r2) as [h |] eqn:Eh.
      * assert (Hretry : to_url u options {| url := u; init := AuthService.with_auth options (Some h) |})
          by (exists r2; rewrite Eh; reflexivity).
        eexists _, _, _, 3%nat, _. split; [exact H |]. split; [reflexivity |].
        split; [simpl; lia |]. split; [reflexivity |]. split; [| split; [reflexivity | split; [exact Hretry | reflexivity]]].
        repeat (match goal with |- Forall _ _ => constructor end); auto.
      * eexists _, _, _, 1%nat, _. split; [exact H |]. split; [reflexivity |].
        split; [simpl; lia |]. split; [reflexivity |]. split; [| split; [reflexivity | split; [exact Hfirst | ]]].
        -- repeat (match goal with |- Forall _ _ => constructor end); auto.
        -- symmetry. exact E1.
    + pose proof (fun ts' => authenticatedFetch_passes b ts' u options (Value response) E1) as H.
      cbv zeta in H. fold r0 first in H.
      eexists _, _, _, 1%nat, _.
      split; [intros ts'; apply H; intros ? [= <-]; exact Hne |].
      split; [reflexivity |].
      split; [simpl; lia |]. split; [reflexivity |]. split; [| split; [reflexivity | split; [exact Hfirst | ]]].
      * repeat (match goal with |- Forall _ _ => constructor end); auto.
      * symmetry. exact E1.
  - pose proof (fun ts' => authenticatedFetch_passes b ts' u options (Thrown e) E1) as H.
    cbv zeta in H. fold r0 first in H.
    eexists _, _, _, 1%nat, _. split; [intros ts'; apply H; intros ? [=] |].
    split; [reflexivity |].
    split; [simpl; lia |]. split; [reflexivity |]. split; [| split; [reflexivity | split; [exact Hfirst | ]]].
    * repeat (match goal with |- Forall _ _ => constructor end); auto.
    * symmetry. exact E1.
Qed.

(** X7. The token store is never read as a cache.  Whatever it holds when a
    method is called on an idle service, [getTokens], [getAuthHeaders],
    [checkAuthStatus] and [authenticatedFetch] send the same requests,
    return the same result and leave the same fields: every call asks the
    backend again. *)
Theorem tokenStore_never_read (b : Backend) (ts ts' : option (gmap string jsval))
    (u : string) (options : RequestInit) :
  let s := {| tokenStore := ts; refreshPromise := None |} in
  let s' := {| tokenStore := ts'; refreshPromise := None |} in
  solo AuthService.getTokens b s = solo AuthService.getTokens b s'
  /\ solo AuthService.getAuthHeaders b s = solo AuthService.getAuthHeaders b s'
  /\ solo AuthService.checkAuthStatus b s = solo AuthService.checkAuthStatus b s'
  /\ solo (AuthService.authenticatedFetch u options) b s
     = solo (AuthService.authenticatedFetch u options) b s'
  /\ exists r, solo AuthService.getTokens b s
               = (Some (Value r), {| tokenStore := r; refreshPromise := None |},
                  [AuthService.tokens_request]).
Proof.
  cbv zeta.
  rewrite !getTokens_alone, !getAuthHeaders_alone, !checkAuthStatus_alone by reflexivity.
  split; [reflexivity |]. split; [reflexivity |]. split; [reflexivity |]. split.
  - destruct (authenticatedFetch_outcome b ts u options) as (o & s1 & l & _ & _ & E & _).
    rewrite !E. reflexivity.
  - eexists. reflexivity.
Qed.




(** ** [Chat] and the service *)


(** X10. When the [Chat] component is mounted it shows the chat, and not
    the sign-in screen, exactly when [GET /auth/tokens] is answered with a
    2xx status and a JSON body other than [null].  The token fields are not
    looked at: a body without them signs the user in as well. *)
Theorem chat_authenticated_iff (b : Backend) (ts : option (gmap string jsval))
    (st : Chat.State) :
  exists settled s' l,
    solo AuthService.checkAuthStatus b {| tokenStore := ts; refreshPromise := None |}
    = (Some settled, s', l)
    /\ l = [AuthService.tokens_request]
    /\ ((exists shown thinking,
           Chat.render (Chat.checkAuthStatus settled st) = Chat.ChatInterface shown thinking)
        <-> exists response data,
              b 0%nat AuthService.tokens_request = Value response
              /\ ok response = true
              /\ body response = Some data
              /\ JS.nullish data = false).
Proof.
  rewrite checkAuthStatus_alone by reflexivity. cbv zeta.
  eexists _, _, _. split; [reflexivity |]. split; [reflexivity |].
  unfold fetched_tokens, Chat.render.
  destruct (b 0%nat AuthService.tokens_request) as [response | e].
  - destruct (ok response) eqn:Hok.
    + destruct (body response) as [data |] eqn:Hb.
      * destruct data; simpl;
          (split;
           [ intros (shown & thinking & H);
             first [discriminate H | eexists _, _; repeat split; eauto]
           | intros (r & d & [= <-] & _ & Hd & Hn); rewrite Hb in Hd; injection Hd as <-;
             first [discriminate Hn | eauto] ]).
      * simpl. split; [intros (? & ? & [=]) |].
        intros (r & d & [= <-] & _ & Hd & _). rewrite Hb in Hd. discriminate.
    + simpl. split; [intros (? & ? & [=]) |].
      intros (r & d & [= <-] & Hok' & _). congruence.
  - simpl. split; [intros (? & ? & [=]) |]. intros (r & d & [=] & _).
Qed.


(** X12. The sign-in button navigates exactly when [GET /auth/login] is
    answered with a 2xx status and a JSON body other than [null], and then
    to the [auth_url] of that body, whatever it is; in every other case
    the error is logged and the page stays.  [getAuthUrl] sends that one
    request and leaves the service as it was. *)
Theorem handleLogin_navigates (b : Backend) (s : AuthService) :
  exists settled,
    solo AuthService.getAuthUrl b s = (Some settled, s, [AuthService.login_request])
    /\ forall target,
         ChatUI.handleLogin settled = Some target
         <-> exists response data,
               b 0%nat AuthService.login_request = Value response
               /\ ok response = true
               /\ body response = Some data
               /\ JS.prop data "auth_url" = Value target.
Proof.
  rewrite getAuthUrl_alone. eexists. split; [reflexivity |].
  intros target. destruct (b 0%nat AuthService.login_request) as [response | e].
  - destruct (ok response) eqn:Hok.
    + destruct (body response) as [data |] eqn:Hb.
      * destruct (JS.prop data "auth_url") as [v | e] eqn:Hp; simpl.
        -- split.
           ++ intros [= <-]. exists response, data. auto.
           ++ intros (r & d & [= <-] & _ & Hd & Hv). rewrite Hb in Hd. injection Hd as <-.
              rewrite Hp in Hv. injection Hv as <-. reflexivity.
        -- split; [discriminate |].
           intros (r & d & [= <-] & _ & Hd & Hv). rewrite Hb in Hd. injection Hd as <-.
           rewrite Hp in Hv. discriminate.
      * simpl. split; [discriminate |].
        intros (r & d & [= <-] & _ & Hd & _). rewrite Hb in Hd. discriminate.
    + simpl. split; [discriminate |].
      intros (r & d & [= <-] & Hok' & _). congruence.
  - simpl. split; [discriminate |]. intros (r & d & [=] & _).
Qed.

(** ** The [AuthCallback] page: what it shows *)

(** X13. The callback page shows green text only after a successful
    exchange.  Every status that the effect sets at once (a failure passed
    in the URL, missing parameters) is shown in red, whatever text the URL
    carries; and once the request has settled the text is green exactly
    when the page redirects to ['/'], which is exactly when the response
    was 2xx.  The spinner is never shown again. *)
Theorem callback_green_only_on_success (params : list (string * string))
    (result : Completion Response) :
  (forall text, fst (AuthCallback.on_mount params) = Some text ->
                AuthCallback.render text = AuthCallback.Text false text)
  /\ let (text, redirect) := AuthCallback.on_settled result in
     exists green,
       AuthCallback.render text = AuthCallback.Text green text
       /\ green = redirect
       /\ (redirect = true <-> exists response, result = Value response /\ ok response = true).
Proof.
  split.
  - intros text. unfold AuthCallback.on_mount.
    destruct (AuthCallback.truthy (AuthCallback.get "error" params)).
    + intros [= <-]. reflexivity.
    + destruct (AuthCallback.get "code" params) as [c |].
      * destruct (_ && _); [discriminate |]. intros [= <-]. reflexivity.
      * intros [= <-]. reflexivity.
  - unfold AuthCallback.on_settled. destruct result as [response | e].
    + destruct (ok response) eqn:Hok.
      * exists true. split; [reflexivity |]. split; [reflexivity |].
        split; [eauto | reflexivity].
      * exists false. split; [reflexivity |]. split; [reflexivity |].
        split; [discriminate |]. intros (r & [= <-] & H). congruence.
    + exists false. split; [reflexivity |]. split; [reflexivity |].
      split; [discriminate |]. intros (r & [=] & _).
Qed.

Local Close Scope Z_scope.

Lemma count_char_app (x : ascii) (a b : string) :
  count_char x (a +:+ b) = count_char x a + count_char x b.
Proof. induction a as [| c a IH]; simpl; [reflexivity |]. rewrite IH. lia. Qed.

Lemma hex_unreserved (c : ascii) :
  Str.unreserved (Str.code (Str.hex (Str.code c / 16))) = true
  /\ Str.unreserved (Str.code (Str.hex (Str.code c mod 16))) = true.
Proof.
  destruct c as [[] [] [] [] [] [] [] []]; split; reflexivity.
Qed.

(** A character that [encodeURIComponent] escapes does not occur in what
    it returns. *)
Lemma encodeURIComponent_escapes (x : ascii) (s : string) :
  Str.unreserved (Str.code x) = false -> x <> "%"%char ->
  count_char x (Str.encodeURIComponent s) = 0.
Proof.
  intros Hx Hp.
  assert (Hne : forall c, Str.unreserved (Str.code c) = true -> Ascii.eqb c x = false).
  { intros c Hc. apply Ascii.eqb_neq. intros ->. congruence. }
  assert (Hpc : Ascii.eqb "%" x = false) by (apply Ascii.eqb_neq; congruence).
  induction s as [| c s IH]; [reflexivity |]. cbn [Str.encodeURIComponent].
  destruct (Str.unreserved (Str.code c)) eqn:Hc; cbn [count_char].
  - rewrite (Hne c Hc), IH. reflexivity.
  - destruct (hex_unreserved c) as [H1 H2].
    rewrite (Hne _ H1), (Hne _ H2), IH, Hpc. reflexivity.
Qed.

(** X14. The URL that [handleCallback] requests keeps its shape whatever
    the code and the scope contain: it has one [?], no [#], one [=] per
    parameter, and an [&] only before [scopes].  So a code or a scope taken
    from the page's own URL cannot add a parameter to the request, or cut
    it short. *)
Theorem handleCallback_url_delimiters (code : string) (scopes : option string) :
  let u := url (AuthCallback.handleCallback code scopes) in
  count_char "?" u = 1
  /\ count_char "#" u = 0
  /\ count_char "&" u = (if AuthCallback.truthy scopes then 1 else 0)
  /\ count_char "=" u = (if AuthCallback.truthy scopes then 2 else 1).
Proof.
  assert (H : forall x s, In x ["?"; "#"; "&"; "="]%char ->
                          count_char x (Str.encodeURIComponent s) = 0).
  { intros x s Hin. apply encodeURIComponent_escapes;
      simpl in Hin; intuition (subst; first [reflexivity | discriminate]). }
  cbv zeta. unfold AuthCallback.handleCallback. cbn [url].
  destruct scopes as [s |]; [destruct (AuthCallback.truthy (Some s)) |];
    rewrite ?count_char_app, !H by (simpl; auto); repeat split; reflexivity.
Qed.

(** ** Schedules of [getTokens] calls: what every reachable state satisfies *)

Lemma Body_mono {X} throws P n n' (code : Async X) :
  n <= n' -> Body throws P n code -> Body throws P n' code.
Proof.
  intros Hle H. revert n' Hle.
  induction H as [n r | n e He | n k Hk IH | n v k Hv Hk IH | n k Hk IH]; intros n' Hle.
  - constructor.
  - constructor. exact He.
  - constructor. intros s. apply IH, Hle.
  - constructor; [exact Hv | apply IH, Hle].
  - destruct n' as [| n']; [lia |]. constructor. apply IH. lia.
Qed.

Lemma bind_body {A B} P n n' (c : Async A) (f : A -> Async B) :
  Body true P n c -> (forall a, Body true P n' (f a)) -> Body true P (n + n') (bind c f).
Proof.
  intros H Hf.
  induction H as [n r | n e He | n k Hk IH | n v k Hv Hk IH | n k Hk IH]; simpl.
  - eapply Body_mono; [| apply Hf]. lia.
  - constructor. reflexivity.
  - constructor. exact IH.
  - constructor; assumption.
  - constructor. exact IH.
Qed.

Lemma try_catch_body {A} P n (c : Async A) (h : Err -> Async A) :
  Body true P n c -> (forall e, Body false P 0 (h e)) -> Body false P n (try_catch c h).
Proof.
  intros H Hh.
  induction H as [n r | n e He | n k Hk IH | n v k Hv Hk IH | n k Hk IH]; simpl.
  - constructor.
  - eapply Body_mono; [| apply Hh]. lia.
  - constructor. exact IH.
  - constructor; assumption.
  - constructor. exact IH.
Qed.

Lemma lift_body {A} P n (c : Completion A) : Body true P n (lift c).
Proof. destruct c; constructor. reflexivity. Qed.

Lemma two_fields_insert (access id : jsval) :
  two_fields (Some (<["access_token" := access]> (<["id_token" := id]> ∅))).
Proof. simpl. rewrite !dom_insert_L, dom_empty_L. set_solver. Qed.

Lemma fetcher_continuation_body :
  exists k, AuthService.fetchAndStoreTokens
            = AwaitFetch AuthService.tokens_request k
            /\ (forall o, Quiet (k o))
            /\ (forall o, Body false two_fields 1 (k o)).
Proof.
  destruct fetcher_continuation_quiet as (k & E & Hq).
  exists k. split; [exact E |]. split; [exact Hq |].
  assert (H : exists k0, AuthService.fetchAndStoreTokens = AwaitFetch AuthService.tokens_request k0
                         /\ forall o, Body false two_fields 1 (k0 o)).
  { eexists. split; [reflexivity |].
    intros o. cbn beta. apply try_catch_body.
    - apply (bind_body _ 0 1); [apply lift_body |].
      intros response. destruct (ok response).
      + constructor. apply (bind_body _ 0 0); [apply lift_body |].
        intros tokens. apply (bind_body _ 0 0); [apply lift_body |].
        intros access. apply (bind_body _ 0 0); [apply lift_body |].
        intros id. constructor; [apply two_fields_insert |]. repeat constructor.
      + constructor; [exact I |]. constructor.
    - intros e. constructor; [exact I |]. constructor. }
  destruct H as (k0 & E0 & H0). rewrite E in E0. injection E0 as ->. exact H0.
Qed.

Lemma invoke_fresh_body (m : Machine Tokens) :
  refreshPromise (this (core m)) = None ->
  exists kf ko,
    (forall o, Body false two_fields 1 (kf o)) /\ Owner ko /\
    invoke AuthService.getTokens m
    = {| core := {| this := {| tokenStore := tokenStore (this (core m));
                               refreshPromise := Some (length (promises (core m))) |};
                    promises := (promises (core m)
                                 ++ [Suspended (OnFetch (length (sent (core m))) kf)])%list;
                    sent := (sent (core m) ++ [AuthService.tokens_request])%list |};
         calls := (calls m ++ [Suspended (OnPromise (length (promises (core m))) ko)])%list |}.
Proof.
  intros H. destruct fetcher_continuation_body as (kf & Ekf & _ & Hkf).
  exists kf. eexists. split; [exact Hkf |].
  unfold invoke, run_code, AuthService.getTokens. cbn -[spawn_fetcher]. rewrite H.
  cbn -[spawn_fetcher]. unfold spawn_fetcher. rewrite Ekf. cbn. split; [| reflexivity].
  intros o. reflexivity.
Qed.

Lemma exec_body (spawn : Core -> Core) n (code : Async Tokens) (c : Core) :
  Body false two_fields n code ->
  exists ts st,
    exec spawn code c
    = ({| this := {| tokenStore := ts; refreshPromise := refreshPromise (this c) |};
          promises := promises c; sent := sent c |}, st)
    /\ (two_fields (tokenStore (this c)) -> two_fields ts)
    /\ ((exists v, st = Finished (Value v))
        \/ (exists k n', st = Suspended (OnTick k) /\ n = S n' /\ Body false two_fields n' k)).
Proof.
  intros H. revert c.
  induction H as [n r | n e He | n k Hk IH | n v k Hv Hk IH | n k Hk IH]; intros c; simpl.
  - exists (tokenStore (this c)), (Finished (Value r)).
    split; [destruct c as [[ts rp] ps l]; reflexivity |]. split; [auto | left; eauto].
  - discriminate He.
  - apply IH.
  - destruct (IH {| this := {| tokenStore := v; refreshPromise := refreshPromise (this c) |};
                    promises := promises c; sent := sent c |}) as (ts & st & E & Hts & Hst).
    exists ts, st. split; [exact E |]. split; [| exact Hst]. intros _. apply Hts. exact Hv.
  - exists (tokenStore (this c)), (Suspended (OnTick k)).
    split; [destruct c as [[ts rp] ps l]; reflexivity |]. split; [auto |].
    right. eauto.
Qed.

(** A caller that continues completes, with the value of its promise; the
    one that started the refresh also resets [refreshPromise]. *)
Lemma resume_caller_shape (m : Machine Tokens) cid st code :
  Inv m -> calls m !! cid = Some st -> resume (core m) st = Some code ->
  exists p k x rp,
    st = Suspended (OnPromise p k)
    /\ promises (core m) !! p = Some (Finished (Value x))
    /\ (Joined k /\ rp = refreshPromise (this (core m))
        \/ Owner k /\ refreshPromise (this (core m)) = Some p /\ rp = None)
    /\ run_caller cid code m
       = {| core := {| this := {| tokenStore := tokenStore (this (core m));
                                  refreshPromise := rp |};
                       promises := promises (core m); sent := sent (core m) |};
            calls := <[cid := Finished (Value x)]> (calls m) |}.
Proof.
  intros Hinv Hl Hr.
  destruct (Inv_caller_waits m cid st code Hinv Hl Hr) as (p & k & x & -> & Hp & -> & Hk).
  exists p, k, x. unfold run_caller, run_code. destruct m as [[[ts rp] ps l] cs].
  destruct Hk as [Hj | [Ho Hrp]].
  - exists rp. rewrite Hj. simpl. split; [reflexivity |]. split; [exact Hp |].
    split; [left; auto | reflexivity].
  - exists None. rewrite Ho. simpl. split; [reflexivity |]. split; [exact Hp |].
    split; [right; auto | reflexivity].
Qed.


(** One more step of the body behind promise [p]. *)
Lemma fetcher_shape (m : Machine Tokens) p s code :
  Live m -> promises (core m) !! p = Some (Suspended s) -> continues s code ->
  exists ts st,
    with_core (run_fetcher p code (core m)) m
    = {| core := {| this := {| tokenStore := ts;
                               refreshPromise := refreshPromise (this (core m)) |};
                    promises := <[p := st]> (promises (core m)); sent := sent (core m) |};
         calls := calls m |}
    /\ (two_fields (tokenStore (this (core m))) -> two_fields ts)
    /\ body_work st < body_work (Suspended s)
    /\ forall s', st = Suspended s' -> BodySusp (sent (core m)) s'.
Proof.
  intros Hlive Hp Hc. pose proof (live_bodies m Hlive p s Hp) as Hs.
  assert (Hcode : exists n, Body false two_fields n code /\ body_work (Suspended s) = S n).
  { destruct s as [fid k | k | p' k]; simpl in Hc, Hs.
    - destruct Hc as [o ->]. exists 1. split; [apply Hs | reflexivity].
    - subst code. exists 0. split; [exact Hs | reflexivity].
    - destruct Hs. }
  destruct Hcode as (n & Hcode & Hn).
  destruct (exec_body spawn_fetcher n code (core m) Hcode) as (ts & st & E & Hts & Hst).
  exists ts, st. unfold run_fetcher, run_code, with_core. rewrite E.
  split; [reflexivity |]. split; [exact Hts |]. rewrite Hn.
  destruct Hst as [[v ->] | (k & n' & -> & -> & Hk)].
  - split; [simpl; lia |]. discriminate.
  - assert (n' = 0) by (destruct s; simpl in Hn; lia). subst n'.
    split; [simpl; lia |]. intros s' [= <-]. exact Hk.
Qed.

Lemma step_cases (e : Event) (m : Machine Tokens) :
  Inv m ->
  step e m = m
  \/ (exists p s code, promises (core m) !! p = Some (Suspended s) /\ continues s code
                       /\ step e m = with_core (run_fetcher p code (core m)) m)
  \/ (exists cid st code, calls m !! cid = Some st /\ resume (core m) st = Some code
                          /\ step e m = run_caller cid code m).
Proof.
  intros Hinv. destruct e as [fid o | p | cid]; simpl.
  - destruct (first_ready (deliver fid o) 0 (promises (core m))) as [[p code] |] eqn:E.
    + apply first_ready_Some in E as (st & Hl & Hd & _). rewrite Nat.sub_0_r in Hl.
      destruct st as [[fid' k | k | p' k] | v]; simpl in Hd; try discriminate.
      destruct (Nat.eqb fid fid'); [| discriminate]. injection Hd as <-.
      right. left. exists p, (OnFetch fid' k), (k o). simpl. eauto.
    + left. rewrite first_ready_None; [reflexivity |].
      intros n st Hl. destruct (inv_calls m Hinv n st Hl) as [[v ->] | (p & k & -> & _)];
        reflexivity.
  - destruct (promises (core m) !! p) as [st |] eqn:Hl; simpl; [| left; reflexivity].
    destruct (resume (core m) st) as [code |] eqn:Hr; [| left; reflexivity].
    destruct (inv_promises m Hinv p st Hl) as [[v ->] | (s & -> & Hs & _)];
      [discriminate |].
    destruct s as [fid' k | k | p' k]; simpl in Hr; try discriminate; [| destruct Hs].
    injection Hr as <-. right. left. exists p, (OnTick k), k. simpl. auto.
  - destruct (calls m !! cid) as [st |] eqn:Hl; simpl; [| left; reflexivity].
    destruct (resume (core m) st) as [code |] eqn:Hr; [| left; reflexivity].
    right. right. exists cid, st, code. auto.
Qed.

Lemma BodySusp_more (l extra : list Request) (s : Susp Tokens) :
  BodySusp l s -> BodySusp (l ++ extra) s.
Proof.
  destruct s as [fid k | k | p k]; simpl; auto.
  intros [[q Hq] Hk]. split; [| exact Hk]. exists q. apply lookup_app_l_Some, Hq.
Qed.

Lemma Live_idle (s : AuthService) : refreshPromise s = None -> Live (idle s).
Proof.
  intros H. split; simpl.
  - intros p s' Hl. discriminate Hl.
  - intros p Hp. congruence.
Qed.

Lemma Live_fetcher (m : Machine Tokens) p s code :
  Live m -> promises (core m) !! p = Some (Suspended s) -> continues s code ->
  Live (with_core (run_fetcher p code (core m)) m).
Proof.
  intros Hlive Hp Hc.
  destruct (fetcher_shape m p s code Hlive Hp Hc) as (ts & st & -> & _ & _ & Hst).
  destruct Hlive as [Hb Ho]. split; simpl.
  - intros p' s' Hl. destruct (decide (p' = p)) as [-> | Hne].
    + rewrite list_lookup_insert_eq in Hl by (eapply lookup_lt_Some, Hp).
      injection Hl as ->. apply Hst. reflexivity.
    + rewrite list_lookup_insert_ne in Hl by congruence. exact (Hb p' s' Hl).
  - exact Ho.
Qed.

Lemma Live_caller (m : Machine Tokens) cid st code :
  Inv m -> Live m -> calls m !! cid = Some st -> resume (core m) st = Some code ->
  Live (run_caller cid code m).
Proof.
  intros Hinv [Hb Ho] Hl Hr.
  destruct (resume_caller_shape m cid st code Hinv Hl Hr)
    as (p & k & x & rp & -> & Hp & Hk & ->).
  split; simpl; [exact Hb |].
  intros p' Hp'. destruct Hk as [[Hj ->] | (_ & _ & ->)]; [| discriminate].
  destruct (Ho p' Hp') as (cid' & k' & Hl' & Hk'). exists cid', k'. split; [| exact Hk'].
  rewrite list_lookup_insert_ne; [exact Hl' |].
  intros <-. rewrite Hl in Hl'. injection Hl' as -> ->. eapply joined_not_owner; eauto.
Qed.

Lemma Live_act (a : Action) (m : Machine Tokens) : Inv m -> Live m -> Live (act a m).
Proof.
  intros Hinv Hlive. destruct a as [| e]; cbn [act].
  - destruct (refreshPromise (this (core m))) as [p |] eqn:Hrp.
    + rewrite (invoke_joined m p Hrp). destruct Hlive as [Hb Ho]. split; simpl; [exact Hb |].
      intros p' Hp'. destruct (Ho p' Hp') as (cid & k & Hl & Hk).
      exists cid, k. split; [apply lookup_app_l_Some, Hl | exact Hk].
    + destruct (invoke_fresh_body m Hrp) as (kf & ko & Hkf & Hko & ->).
      destruct Hlive as [Hb Ho]. split; simpl.
      * intros p s Hl. apply lookup_app_Some in Hl as [Hl | [_ Hl]].
        -- apply BodySusp_more, (Hb p s Hl).
        -- apply list_lookup_singleton_Some in Hl as [_ [= <-]]. simpl.
           split; [| exact Hkf]. exists AuthService.tokens_request.
           apply list_lookup_middle. reflexivity.
      * intros p [= <-]. exists (length (calls m)), ko. split; [| exact Hko].
        apply list_lookup_middle. reflexivity.
  - destruct (step_cases e m Hinv)
      as [-> | [(p & s & code & Hp & Hc & ->) | (cid & st & code & Hl & Hr & ->)]].
    + exact Hlive.
    + eapply Live_fetcher; eauto.
    + eapply Live_caller; eauto.
Qed.

Lemma run_cons (a : Action) (acts : list Action) (m : Machine Tokens) :
  run (a :: acts) m = run acts (act a m).
Proof. reflexivity. Qed.

Lemma Live_run (acts : list Action) (m : Machine Tokens) :
  Inv m -> Live m -> Live (run acts m).
Proof.
  revert m. induction acts as [| a acts IH]; intros m Hinv Hlive; [exact Hlive |].
  rewrite run_cons. apply IH; [apply Inv_act, Hinv | apply Live_act; assumption].
Qed.

(** What one event leaves as it is. *)
Lemma step_frame (e : Event) (m : Machine Tokens) :
  Inv m -> Live m ->
  sent (core (step e m)) = sent (core m)
  /\ length (promises (core (step e m))) = length (promises (core m))
  /\ length (calls (step e m)) = length (calls m)
  /\ (two_fields (tokenStore (this (core m))) ->
      two_fields (tokenStore (this (core (step e m)))))
  /\ forall cid v, calls (step e m) !! cid = Some (Finished v) ->
                   calls m !! cid = Some (Finished v) \/ exists x, v = Value x.
Proof.
  intros Hinv Hlive.
  destruct (step_cases e m Hinv)
    as [-> | [(p & s & code & Hp & Hc & ->) | (cid & st & code & Hl & Hr & ->)]].
  - auto 10.
  - destruct (fetcher_shape m p s code Hlive Hp Hc) as (ts & st & -> & Hts & _). simpl.
    rewrite length_insert. auto 10.
  - destruct (resume_caller_shape m cid st code Hinv Hl Hr)
      as (p & k & x & rp & -> & Hp & Hk & ->). simpl.
    rewrite length_insert. split; [reflexivity |]. split; [reflexivity |].
    split; [reflexivity |]. split; [auto |].
    intros cid' v Hv. destruct (decide (cid' = cid)) as [-> | Hne].
    + rewrite list_lookup_insert_eq in Hv by (eapply lookup_lt_Some, Hl).
      injection Hv as <-. right. eauto.
    + rewrite list_lookup_insert_ne in Hv by congruence. left. exact Hv.
Qed.

Lemma call_frame (m : Machine Tokens) :
  Inv m ->
  exists st extra,
    calls (invoke AuthService.getTokens m) = (calls m ++ [Suspended st])%list
    /\ sent (core (invoke AuthService.getTokens m)) = (sent (core m) ++ extra)%list
    /\ (extra = [] \/ extra = [AuthService.tokens_request])
    /\ tokenStore (this (core (invoke AuthService.getTokens m))) = tokenStore (this (core m)).
Proof.
  intros Hinv. destruct (refreshPromise (this (core m))) as [p |] eqn:Hrp.
  - rewrite (invoke_joined m p Hrp). simpl. eexists _, []. rewrite app_nil_r. auto.
  - destruct (invoke_fresh m Hrp) as (kf & ko & _ & _ & ->). simpl.
    eexists _, _. split; [reflexivity |]. split; [reflexivity |]. split; [right |]; reflexivity.
Qed.

Lemma Resolved_act (a : Action) (m : Machine Tokens) :
  Inv m -> Live m -> Resolved m -> Resolved (act a m).
Proof.
  intros Hinv Hlive Hres. destruct a as [| e]; cbn [act].
  - intros cid v Hl. destruct (call_frame m Hinv) as (st & extra & Hc & _).
    rewrite Hc in Hl. apply lookup_app_Some in Hl as [Hl | [_ Hl]]; [exact (Hres cid v Hl) |].
    apply list_lookup_singleton_Some in Hl as [_ [=]].
  - intros cid v Hl. destruct (step_frame e m Hinv Hlive) as (_ & _ & _ & _ & H).
    destruct (H cid v Hl) as [Hold | Hv]; [exact (Hres cid v Hold) | exact Hv].
Qed.

Lemma run_counts (acts : list Action) (m : Machine Tokens) :
  Inv m -> Live m ->
  length (calls (run acts m)) = length (calls m) + calls_made acts
  /\ exists extra, sent (core (run acts m)) = (sent (core m) ++ extra)%list
                   /\ length extra <= calls_made acts
                   /\ Forall (fun q => q = AuthService.tokens_request) extra.
Proof.
  revert m. induction acts as [| a acts IH]; intros m Hinv Hlive.
  - simpl. split; [lia |]. exists []. rewrite app_nil_r.
    split; [reflexivity |]. split; [simpl; lia | constructor].
  - rewrite run_cons.
    destruct (IH (act a m) (Inv_act a m Hinv) (Live_act a m Hinv Hlive))
      as (Hc & extra & Hsent & Hlen & Hall).
    rewrite Hc, Hsent. destruct a as [| e]; cbn [act].
    + destruct (call_frame m Hinv) as (st & extra0 & -> & -> & Hextra & _).
      simpl. rewrite length_app. simpl. split; [lia |].
      exists (extra0 ++ extra)%list. rewrite app_assoc. split; [reflexivity |].
      rewrite length_app. destruct Hextra as [-> | ->]; simpl; (split; [lia |]); auto.
    + destruct (step_frame e m Hinv Hlive) as (-> & _ & -> & _).
      simpl. split; [lia |]. exists extra. auto.
Qed.

(** *** Progress *)

Lemma sum_insert (f : Status Tokens -> nat) (l : list (Status Tokens)) i x y :
  l !! i = Some x ->
  sum_list (map f (<[i := y]> l)) + f x = sum_list (map f l) + f y.
Proof.
  revert i. induction l as [| z l IH]; intros i Hl; [discriminate |].
  destruct i as [| i]; simpl in *.
  - injection Hl as ->. lia.
  - specialize (IH i Hl). lia.
Qed.

Lemma fetcher_progress (m : Machine Tokens) p s code :
  Live m -> promises (core m) !! p = Some (Suspended s) -> continues s code ->
  work (with_core (run_fetcher p code (core m)) m) < work m.
Proof.
  intros Hlive Hp Hc.
  destruct (fetcher_shape m p s code Hlive Hp Hc) as (ts & st & -> & _ & Hlt & _).
  unfold work. simpl.
  pose proof (sum_insert body_work (promises (core m)) p _ st Hp). lia.
Qed.

Lemma caller_progress (m : Machine Tokens) cid st code :
  Inv m -> calls m !! cid = Some st -> resume (core m) st = Some code ->
  work (run_caller cid code m) < work m.
Proof.
  intros Hinv Hl Hr.
  destruct (resume_caller_shape m cid st code Hinv Hl Hr)
    as (p & k & x & rp & -> & Hp & Hk & ->).
  unfold work. simpl.
  pose proof (sum_insert waiting (calls m) cid _ (Finished (Value x)) Hl). simpl in H. lia.
Qed.

Lemma first_ready_None_inv {X} (pick : Status X -> option (Async X)) i t :
  first_ready pick i t = None -> forall n st, t !! n = Some st -> pick st = None.
Proof.
  revert i. induction t as [| st0 t IH]; intros i H n st Hl; [discriminate |].
  simpl in H. destruct (pick st0) eqn:E; [discriminate |].
  destruct n as [| n]; simpl in Hl.
  - injection Hl as <-. exact E.
  - eapply IH; eauto.
Qed.

Lemma head_omap_Some {A B} (f : A -> option B) (l : list A) y :
  head (omap f l) = Some y -> exists i x, l !! i = Some x /\ f x = Some y.
Proof.
  induction l as [| x l IH]; simpl; [discriminate |].
  destruct (f x) as [y' |] eqn:E; simpl.
  - intros [= ->]. exists 0, x. auto.
  - intros H. destruct (IH H) as (i & x' & Hl & Hf). exists (S i), x'. auto.
Qed.

Lemma head_omap_None {A B} (f : A -> option B) (l : list A) :
  head (omap f l) = None -> forall i x, l !! i = Some x -> f x = None.
Proof.
  induction l as [| x0 l IH]; simpl; intros H i x Hl; [discriminate |].
  destruct (f x0) as [y' |] eqn:E; simpl in H; [discriminate |].
  destruct i as [| i]; simpl in Hl.
  - injection Hl as <-. exact E.
  - eapply IH; eauto.
Qed.

Lemma callers_not_fetching (m : Machine Tokens) :
  Inv m -> omap pending_fetch (calls m) = [].
Proof.
  intros Hinv. pose proof (inv_calls m Hinv) as HC.
  induction (calls m) as [| st l IH]; [reflexivity |]. simpl.
  destruct (HC 0 st eq_refl) as [[v ->] | (p & k & -> & _)]; simpl;
    apply IH; intros cid st' Hl; exact (HC (S cid) st' Hl).
Qed.

(** Either nothing is left to do and every call has completed, or the event
    that the loop picks brings the state closer to that. *)
Lemma progress (b : Backend) (m : Machine Tokens) :
  Inv m -> Live m ->
  (next_event b m = None
   /\ forall cid st, calls m !! cid = Some st -> exists v, st = Finished v)
  \/ (exists e, next_event b m = Some e /\ work (step e m) < work m).
Proof.
  intros Hinv Hlive. unfold next_event.
  destruct (first_ready (resume (core m)) 0 (promises (core m))) as [[p code] |] eqn:Ep.
  { right. eexists. split; [reflexivity |].
    apply first_ready_Some in Ep as (st & Hl & Hr & _). rewrite Nat.sub_0_r in Hl.
    simpl. rewrite Hl. simpl. rewrite Hr.
    destruct (inv_promises m Hinv p st Hl) as [[v ->] | (s & -> & Hs & _)];
      [discriminate |].
    destruct s as [fid' k | k | p' k]; simpl in Hr; try discriminate; [| destruct Hs].
    injection Hr as <-. eapply fetcher_progress; [exact Hlive | exact Hl | reflexivity]. }
  destruct (first_ready (resume (core m)) 0 (calls m)) as [[cid code] |] eqn:Ec.
  { right. eexists. split; [reflexivity |].
    apply first_ready_Some in Ec as (st & Hl & Hr & _). rewrite Nat.sub_0_r in Hl.
    simpl. rewrite Hl. simpl. rewrite Hr.
    eapply caller_progress; eauto. }
  rewrite (callers_not_fetching m Hinv), app_nil_r.
  destruct (head (omap pending_fetch (promises (core m)))) as [fid |] eqn:Eh.
  - right. apply head_omap_Some in Eh as (p & st & Hl & Hf).
    destruct st as [[fid' k | k | p' k] | v]; simpl in Hf; try discriminate.
    injection Hf as ->.
    destruct (live_bodies m Hlive p _ Hl) as [[req Hreq] Hk]. rewrite Hreq.
    eexists. split; [reflexivity |]. simpl.
    destruct (first_ready (deliver fid (b fid req)) 0 (promises (core m)))
      as [[p' code] |] eqn:Ed.
    + apply first_ready_Some in Ed as (st & Hl' & Hd & _). rewrite Nat.sub_0_r in Hl'.
      destruct st as [[fid' k' | k' | p'' k'] | v]; simpl in Hd; try discriminate.
      destruct (Nat.eqb fid fid'); [| discriminate]. injection Hd as <-.
      eapply fetcher_progress; [exact Hlive | exact Hl' | simpl; eauto].
    + exfalso. pose proof (first_ready_None_inv _ _ _ Ed p _ Hl) as Hd.
      simpl in Hd. rewrite Nat.eqb_refl in Hd. discriminate.
  - left. split; [reflexivity |].
    assert (Hfin : forall p st, promises (core m) !! p = Some st -> exists v, st = Finished v).
    { intros p st Hl. destruct st as [s | v]; [| eauto]. exfalso.
      pose proof (first_ready_None_inv _ _ _ Ep p _ Hl) as Hr.
      pose proof (head_omap_None _ _ Eh p _ Hl) as Hf.
      pose proof (live_bodies m Hlive p s Hl) as Hs.
      destruct s as [fid k | k | p' k]; simpl in Hr, Hf, Hs; try discriminate. exact Hs. }
    intros cid st Hl. destruct (inv_calls m Hinv cid st Hl) as [Hv | (p & k & -> & Hlt & _)];
      [exact Hv |].
    exfalso. pose proof (first_ready_None_inv _ _ _ Ec cid _ Hl) as Hr. simpl in Hr.
    destruct (lookup_lt_is_Some_2 _ _ Hlt) as [st Hst]. rewrite Hst in Hr.
    destruct (Hfin p st Hst) as [v ->]. discriminate.
Qed.

Lemma drive_completes (b : Backend) (n : nat) (m : Machine Tokens) :
  Inv m -> Live m -> work m <= n ->
  let m' := drive n b m in
  Inv m' /\ Live m'
  /\ next_event b m' = None
  /\ (forall cid st, calls m' !! cid = Some st -> exists v, st = Finished v)
  /\ length (calls m') = length (calls m)
  /\ sent (core m') = sent (core m)
  /\ (Resolved m -> Resolved m').
Proof.
  revert m. induction n as [| n IH]; intros m Hinv Hlive Hw; cbv zeta.
  - destruct (progress b m Hinv Hlive) as [[Hq Hfin] | (e & _ & Hlt)]; [| lia].
    simpl. auto 10.
  - destruct (progress b m Hinv Hlive) as [[Hq Hfin] | (e & He & Hlt)].
    + rewrite drive_quiet by exact Hq. auto 10.
    + simpl. rewrite He.
      assert (Hinv' : Inv (step e m)) by (apply Inv_step, Hinv).
      assert (Hlive' : Live (step e m)) by (apply (Live_act (Happens e)); assumption).
      destruct (IH (step e m) Hinv' Hlive' ltac:(lia)) as (H1 & H2 & H3 & H4 & H5 & H6 & H7).
      destruct (step_frame e m Hinv Hlive) as (Hs & _ & Hc & _ & _).
      split; [exact H1 |]. split; [exact H2 |]. split; [exact H3 |]. split; [exact H4 |].
      split; [congruence |]. split; [congruence |].
      intros Hres. apply H7. apply (Resolved_act (Happens e)); assumption.
Qed.

Lemma work_bound (m : Machine Tokens) :
  work m <= 2 * length (promises (core m)) + length (calls m).
Proof.
  unfold work.
  assert (Hp : forall l, sum_list (map body_work l) <= 2 * length l).
  { induction l as [| [[fid k | k | p k] | v] l IH]; simpl in *; lia. }
  assert (Hc : forall l, sum_list (map waiting l) <= length l).
  { induction l as [| [s | v] l IH]; simpl in *; lia. }
  specialize (Hp (promises (core m))). specialize (Hc (calls m)). lia.
Qed.

Lemma Resolved_run (acts : list Action) (m : Machine Tokens) :
  Inv m -> Live m -> Resolved m -> Resolved (run acts m).
Proof.
  revert m. induction acts as [| a acts IH]; intros m Hinv Hlive Hres; [exact Hres |].
  rewrite run_cons.
  apply IH; [apply Inv_act, Hinv | apply Live_act; assumption | apply Resolved_act; assumption].
Qed.


(** X15. [getTokens] never rejects.  Under every schedule of [getTokens]
    calls, answers and continuations, a call that has completed has
    returned (tokens or [null]), and a promise of [fetchAndStoreTokens]
    that has settled was fulfilled: a failure of the backend never reaches
    a caller as an exception. *)
Theorem getTokens_never_rejects (ts : Tokens) (acts : list Action) :
  let m := run acts (idle {| tokenStore := ts; refreshPromise := None |}) in
  (forall cid v, calls m !! cid = Some (Finished v) -> exists x, v = Value x)
  /\ (forall p v, promises (core m) !! p = Some (Finished v) -> exists x, v = Value x).
Proof.
  intros m. set (s0 := {| tokenStore := ts; refreshPromise := None |}) in *.
  assert (Hs : refreshPromise s0 = None) by reflexivity. split.
  - apply Resolved_run; [apply Inv_idle, Hs | apply Live_idle, Hs |].
    intros cid v Hl. discriminate Hl.
  - intros p v Hl.
    destruct (inv_promises m (Inv_run acts _ (Inv_idle s0 Hs)) p _ Hl)
      as [[x [= ->]] | (s & [=] & _)].
    eauto.
Qed.

(** X16. Under every schedule the service has sent at most one request per
    [getTokens] call made so far, each of them the [GET] of
    [/api/auth/tokens] with credentials: events alone (answers,
    continuations) never make it send anything, and no call is lost from
    the list of calls. *)
Theorem getTokens_requests_bounded (ts : Tokens) (acts : list Action) :
  let m := run acts (idle {| tokenStore := ts; refreshPromise := None |}) in
  length (calls m) = calls_made acts
  /\ length (sent (core m)) <= calls_made acts
  /\ Forall (fun q => q = AuthService.tokens_request) (sent (core m)).
Proof.
  intros m. set (s0 := {| tokenStore := ts; refreshPromise := None |}) in *.
  assert (Hs : refreshPromise s0 = None) by reflexivity.
  destruct (run_counts acts (idle s0) (Inv_idle s0 Hs) (Live_idle s0 Hs))
    as (Hc & extra & Hsent & Hlen & Hall).
  fold m in Hc, Hsent. simpl in Hc, Hsent. subst extra. auto.
Qed.

Lemma store_run (acts : list Action) (m : Machine Tokens) :
  Inv m -> Live m -> two_fields (tokenStore (this (core m))) ->
  two_fields (tokenStore (this (core (run acts m)))).
Proof.
  revert m. induction acts as [| a acts IH]; intros m Hinv Hlive H; [exact H |].
  rewrite run_cons. apply IH; [apply Inv_act, Hinv | apply Live_act; assumption |].
  destruct a as [| e]; cbn [act].
  - destruct (call_frame m Hinv) as (st & extra & _ & _ & _ & ->). exact H.
  - destruct (step_frame e m Hinv Hlive) as (_ & _ & _ & Hst & _). apply Hst, H.
Qed.

(** X17. The token store is well formed at every moment.  If it starts as
    [null] or a record with exactly the fields [access_token] and
    [id_token], it is so in every state that a schedule of [getTokens]
    calls reaches, also between two steps of a fetch. *)
Theorem tokenStore_two_fields (s0 : AuthService) (acts : list Action) :
  refreshPromise s0 = None ->
  two_fields (tokenStore s0) ->
  two_fields (tokenStore (this (core (run acts (idle s0))))).
Proof.
  intros Hs H0. apply store_run; [apply Inv_idle, Hs | apply Live_idle, Hs | exact H0].
Qed.

Lemma tokenStore_two_fields_witness :
  let answer :=
    Value {| status := 200; statusText := "OK";
             body := Some (JObj [("access_token", JStr "A"); ("refresh_token", JStr "R");
                                 ("id_token", JStr "I")]) |} in
  let acts := [CallGetTokens; CallGetTokens; Happens (Deliver 0 answer);
               Happens (ResumeFetcher 0)] in
  let m := run acts (idle {| tokenStore := None; refreshPromise := None |}) in
  tokenStore (this (core m))
  = Some (<["access_token" := JStr "A"]> (<["id_token" := JStr "I"]> ∅))
  /\ two_fields (tokenStore (this (core m))).
Proof.
  intros answer acts m. split; [reflexivity |].
  exact (tokenStore_two_fields {| tokenStore := None; refreshPromise := None |} acts eq_refl I).
Defined.

(** X18. No [getTokens] call waits for ever.  From any state that a
    schedule of [getTokens] calls reaches, let the event loop run against
    any backend that answers each request (with a response or a failure):
    after at most three events per call made, nothing is left to do, every
    call has returned, [refreshPromise] is [null] again, and the loop has
    sent no request of its own. *)
Theorem getTokens_all_complete (b : Backend) (s0 : AuthService) (acts : list Action)
    (fuel : nat) :
  refreshPromise s0 = None ->
  3 * calls_made acts <= fuel ->
  let m := run acts (idle s0) in
  let m' := drive fuel b m in
  length (calls m') = calls_made acts
  /\ (forall cid, cid < calls_made acts ->
        exists x, calls m' !! cid = Some (Finished (Value x)))
  /\ refreshPromise (this (core m')) = None
  /\ sent (core m') = sent (core m)
  /\ next_event b m' = None.
Proof.
  intros Hs Hfuel m m'.
  assert (Hinv : Inv m) by (apply Inv_run, Inv_idle, Hs).
  assert (Hlive : Live m) by (apply Live_run; [apply Inv_idle | apply Live_idle]; exact Hs).
  assert (Hres : Resolved m).
  { apply Resolved_run; [apply Inv_idle, Hs | apply Live_idle, Hs |].
    intros cid v Hl. discriminate Hl. }
  destruct (run_counts acts (idle s0) (Inv_idle s0 Hs) (Live_idle s0 Hs))
    as (Hc & extra & Hsent & Hlen & _).
  fold m in Hc, Hsent. simpl in Hc, Hsent. subst extra.
  assert (Hw : work m <= fuel).
  { pose proof (work_bound m) as Hb. rewrite <- (inv_sent m Hinv) in Hb. lia. }
  destruct (drive_completes b fuel m Hinv Hlive Hw)
    as (Hinv' & Hlive' & Hq & Hfin & Hlen' & Hsent' & Hres').
  fold m' in Hinv', Hlive', Hq, Hfin, Hlen', Hsent', Hres'.
  split; [lia |]. split; [| split; [| split; [exact Hsent' | exact Hq]]].
  - intros cid Hcid.
    destruct (lookup_lt_is_Some_2 (calls m') cid ltac:(lia)) as [st Hst].
    destruct (Hfin cid st Hst) as [v ->].
    destruct (Hres' Hres cid v Hst) as [x ->]. eauto.
  - destruct (refreshPromise (this (core m'))) as [p |] eqn:Hrp; [| reflexivity].
    destruct (live_owner m' Hlive' p Hrp) as (cid & k & Hl & _).
    destruct (Hfin cid _ Hl) as [v [=]].
Qed.

Lemma getTokens_all_complete_witness :
  let b : Backend := fun _ _ => Value {| status := 200; statusText := "OK";
             body := Some (JObj [("access_token", JStr "A"); ("id_token", JStr "I")]) |} in
  let s0 := {| tokenStore := None; refreshPromise := None |} in
  let acts := [CallGetTokens; CallGetTokens] in
  let m' := drive 6 b (run acts (idle s0)) in
  (3 * calls_made acts <= 6)
  /\ length (calls m') = 2
  /\ refreshPromise (this (core m')) = None.
Proof.
  intros b s0 acts m'.
  assert (H3 : 3 * calls_made acts <= 6) by (simpl; lia).
  pose proof (getTokens_all_complete b s0 acts 6 eq_refl H3) as (H & _ & Hrp & _).
  split; [exact H3 |]. split; [exact H | exact Hrp].
Defined.

(** Two calls, run to their end. *)
Example getTokens_two_calls_complete :
  let t : gmap string jsval := <["access_token" := JStr "A"]> (<["id_token" := JStr "I"]> ∅) in
  let b : Backend := fun _ _ => Value {| status := 200; statusText := "OK";
             body := Some (JObj [("access_token", JStr "A"); ("id_token", JStr "I")]) |} in
  let m' := drive 6 b (run [CallGetTokens; CallGetTokens]
                         (idle {| tokenStore := None; refreshPromise := None |})) in
  calls m' = [Finished (Value (Some t)); Finished (Value (Some t))]
  /\ this (core m') = {| tokenStore := Some t; refreshPromise := None |}
  /\ sent (core m') = [AuthService.tokens_request].
Proof. repeat split. Qed.

Local Open Scope Z_scope.
